(** * Isolation game agent: depth-limited minimax, alpha-beta pruning and
      iterative deepening under a deadline clock.

    Shallow embedding of [Projects/Isolation Game Agent/game_agent.py].

    - Python floats are modelled by [pyfloat]: the two infinities and the
      finite values, each finite value as the rational it denotes.  The
      heuristics that only convert an integer to a float are exact on list
      lengths; [opp_diff_decay], which divides and multiplies floats, is
      computed in IEEE binary64 ([Float64]), one rounding per operation.
      NaN never arises in the search.
    - The deadline clock [time_left] is a callable whose successive calls
      return successive readings: it is a sequence [nat -> Q] together with
      the number of calls made so far, threaded through every function.
    - [SearchTimeout] is the only exception of the search; a computation
      is a function from the clock state to either a value and the new
      clock state, or a raised [SearchTimeout]. *)

From Stdlib Require Import List ZArith QArith Bool String Lia Lqa.
From Stdlib Require SpecFloat.
Import ListNotations.

Local Open Scope Z_scope.

(** ** Python values *)

Module PyFloat.

Inductive pyfloat : Type :=
| NInf                 (* float('-inf') *)
| Fin (q : Q)          (* a finite float *)
| PInf.                (* float('inf') *)

Definition Qltb (x y : Q) : bool :=
  (Qnum x * QDen y <? Qnum y * QDen x)%Z.

(** [a < b] on floats. *)
Definition fltb (a b : pyfloat) : bool :=
  match a, b with
  | NInf, NInf => false
  | NInf, _ => true
  | Fin _, NInf => false
  | Fin x, Fin y => Qltb x y
  | Fin _, PInf => true
  | PInf, _ => false
  end.

(** [a <= b] on floats. *)
Definition fleb (a b : pyfloat) : bool :=
  match a, b with
  | NInf, _ => true
  | Fin _, NInf => false
  | Fin x, Fin y => Qle_bool x y
  | Fin _, PInf => true
  | PInf, PInf => true
  | PInf, _ => false
  end.

(** Python's two-argument [min(a, b)]: [b] when [b < a], else [a]. *)
Definition pymin (a b : pyfloat) : pyfloat := if fltb b a then b else a.

(** Python's two-argument [max(a, b)]: [b] when [b > a], else [a]. *)
Definition pymax (a b : pyfloat) : pyfloat := if fltb a b then b else a.

Definition flt (a b : pyfloat) : Prop := fltb a b = true.
Definition fle (a b : pyfloat) : Prop := fltb b a = false.
(** Numerical equality ([==] on floats). *)
Definition feq (a b : pyfloat) : Prop := fle a b /\ fle b a.

End PyFloat.
Export PyFloat.

(** A value a heuristic may hand back: the code returns floats, and in one
    place a string. *)
Inductive pyval : Type :=
| PyFloat (x : pyfloat)
| PyStr (s : string).

(** A Python float, NaN included. *)
Inductive pynumber : Type :=
| Number (x : pyfloat)
| NaN.

(** The exceptions of float arithmetic. *)
Inductive pyerror : Type :=
| ZeroDivisionError
| OverflowError.

(** The outcome of an arithmetic expression. *)
Inductive pyresult : Type :=
| Returns (x : pynumber)
| Raises (e : pyerror).

(** ** Binary64 arithmetic *)

(** Python's [float] is the IEEE binary64 format: 53 bits of precision,
    rounding to nearest with ties to even.  The operations are those of
    the standard library's [SpecFloat], which computes on the sign, the
    mantissa and the exponent. *)
Module Float64.

Definition prec : Z := 53.
Definition emax : Z := 1024.
Definition float64 : Type := SpecFloat.spec_float.

(** An integer as it stands, before any rounding. *)
Definition exact_int (z : Z) : float64 :=
  match z with
  | Z0 => SpecFloat.S754_zero false
  | Zpos m => SpecFloat.S754_finite false m 0
  | Zneg m => SpecFloat.S754_finite true m 0
  end.

(** The double nearest to the integer [z] (an infinity beyond the range). *)
Definition nearest (z : Z) : float64 :=
  SpecFloat.binary_normalize prec emax z 0 false.

(** [float(z)], also the conversion of an [int] operand of a float
    operation: [None] is the [OverflowError] raised when [z] is too large
    for a float. *)
Definition float_of_int (z : Z) : option float64 :=
  match nearest z with
  | SpecFloat.S754_infinity _ => None
  | x => Some x
  end.

(** [a / b] on two ints with [b <> 0]: the quotient correctly rounded;
    [None] is the [OverflowError] raised when it is too large for a
    float. *)
Definition int_truediv (a b : Z) : option float64 :=
  match SpecFloat.SFdiv prec emax (exact_int a) (exact_int b) with
  | SpecFloat.S754_infinity _ => None
  | x => Some x
  end.

Definition fsub (x y : float64) : float64 := SpecFloat.SFsub prec emax x y.
Definition fmul (x y : float64) : float64 := SpecFloat.SFmul prec emax x y.

(** The number a double denotes (the sign of a zero is not kept). *)
Definition number_of (x : float64) : pynumber :=
  match x with
  | SpecFloat.S754_zero _ => Number (Fin 0)
  | SpecFloat.S754_infinity false => Number PInf
  | SpecFloat.S754_infinity true => Number NInf
  | SpecFloat.S754_nan => NaN
  | SpecFloat.S754_finite s m e =>
      let v := match e with
               | Zneg p => Qmake (Zpos m) (2 ^ p)
               | _ => inject_Z (Zpos m * 2 ^ e)
               end in
      Number (Fin (if s then Qopp v else v))
  end.

End Float64.

(** ** The board seen by the agent *)

(** A move is a pair of board coordinates; [(-1, -1)] is the
    "no legal move" value. *)
Definition Move : Type := (Z * Z)%type.
Definition no_move : Move := (-1, -1).

Inductive Player : Type := Player1 | Player2.

Definition Player_eqb (p q : Player) : bool :=
  match p, q with
  | Player1, Player1 | Player2, Player2 => true
  | _, _ => false
  end.

(** Modelled from the spec: the class [isolation.Board] is not part of the
    sources; the agent uses it only through the methods below (spec 4.1:
    legal moves, successor generation, terminal tests, opponent).  A
    snapshot is immutable and every move fills a cell, so a snapshot is
    given together with its finite tree of successors:
    [successors] lists, in enumeration order, each move of
    [get_legal_moves()] (the moves of the player to move) paired with the
    snapshot [forecast_move(move)] returns for it. *)
#[local] Unset Elimination Schemes.
Inductive Board : Type := mkBoard {
  is_winner : Player -> bool;
  is_loser : Player -> bool;
  get_legal_moves_of : Player -> list Move; (* get_legal_moves(player) *)
  get_opponent : Player -> Player;
  height : Z;
  width : Z;
  get_blank_spaces : list Move;
  successors : list (Move * Board)
}.
#[local] Set Elimination Schemes.

(** [game.get_legal_moves()] *)
Definition get_legal_moves (game : Board) : list Move :=
  map fst (successors game).

(** Python's [len] on a list. *)
Definition len {A : Type} (l : list A) : Z := Z.of_nat (List.length l).

(** Induction over a snapshot and all the snapshots reachable from it. *)
Fixpoint Board_tree_ind (P : Board -> Prop)
    (step : forall b, Forall (fun mc => P (snd mc)) (successors b) -> P b)
    (b : Board) {struct b} : P b :=
  match b as b0 return
        (Forall (fun mc => P (snd mc)) (successors b0) -> P b0) -> P b0 with
  | mkBoard w l lm o h wd bl succ =>
      fun k =>
        k ((fix go (l : list (Move * Board)) :
              Forall (fun mc => P (snd mc)) l :=
              match l with
              | [] => Forall_nil _
              | mc :: l' =>
                  Forall_cons mc
                    (match mc as mc0 return P (snd mc0) with
                     | (_, c) => Board_tree_ind P step c
                     end)
                    (go l')
              end) succ)
  end (step b).

(** ** Heuristic evaluation functions *)

Module Heuristics.

(** [opp_diff]: own mobility minus the opponent's. *)
Definition opp_diff (game : Board) (player : Player) : pyfloat :=
  if is_winner game player then PInf
  else if is_loser game player then NInf
  else Fin (inject_Z (len (get_legal_moves_of game player)
                      - len (get_legal_moves_of game (get_opponent game player)))).

(** [opp_diff_defensive]: own mobility weighted by [theta = 2]. *)
Definition opp_diff_defensive (game : Board) (player : Player) : pyfloat :=
  if is_winner game player then PInf
  else if is_loser game player then NInf
  else
    let player_moves := get_legal_moves_of game player in
    let opponent_moves := get_legal_moves_of game (get_opponent game player) in
    let theta := 2 in
    Fin (inject_Z (theta * len player_moves - len opponent_moves)).

(** [opp_diff_aggressive]: the opponent's mobility weighted by [theta = 2].
    The losing branch is [return ('-inf')]: a string. *)
Definition opp_diff_aggressive (game : Board) (player : Player) : pyval :=
  if is_winner game player then PyFloat PInf
  else if is_loser game player then PyStr "-inf"%string
  else
    let player_moves := get_legal_moves_of game player in
    let opponent_moves := get_legal_moves_of game (get_opponent game player) in
    let theta := 2 in
    PyFloat (Fin (inject_Z (len player_moves - theta * len opponent_moves))).

(** [opp_diff_decay]: the weights move with the share of the board already
    filled.  [/] is Python 3's true division of two ints, which raises
    [ZeroDivisionError] on a board of area zero; every operation after it
    is a float operation, rounded to binary64, its [int] operand converted
    first. *)
Definition opp_diff_decay (game : Board) (player : Player) : pyresult :=
  if is_winner game player then Returns (Number PInf)
  else if is_loser game player then Returns (Number NInf)
  else
    let player_moves := len (get_legal_moves_of game player) in
    let opponent_moves :=
      len (get_legal_moves_of game (get_opponent game player)) in
    if height game * width game =? 0 then Raises ZeroDivisionError
    else
      match Float64.int_truediv
              (height game * width game - len (get_blank_spaces game))
              (height game * width game) with
      | None => Raises OverflowError
      | Some game_ratio =>
          let theta := 3 in
          (* (1 - game_ratio) * theta * player_moves *)
          match Float64.float_of_int player_moves with
          | None => Raises OverflowError
          | Some player_moves_f =>
              let own :=
                Float64.fmul
                  (Float64.fmul
                     (Float64.fsub (Float64.nearest 1) game_ratio)
                     (Float64.nearest theta))
                  player_moves_f in
              (* game_ratio * opponent_moves *)
              match Float64.float_of_int opponent_moves with
              | None => Raises OverflowError
              | Some opponent_moves_f =>
                  let theirs := Float64.fmul game_ratio opponent_moves_f in
                  Returns (Float64.number_of (Float64.fsub own theirs))
              end
          end
      end.

Definition custom_score (game : Board) (player : Player) : pyfloat :=
  opp_diff_defensive game player.

Definition custom_score_2 (game : Board) (player : Player) : pyfloat :=
  opp_diff game player.

Definition custom_score_3 (game : Board) (player : Player) : pyresult :=
  opp_diff_decay game player.

(** What spec 4.2 asks of an evaluator's answer [r] ([None]: no answer). *)
Definition meets_contract (game : Board) (player : Player)
    (r : option pyval) : Prop :=
  if is_winner game player then r = Some (PyFloat PInf)
  else if is_loser game player then r = Some (PyFloat NInf)
  else exists q, r = Some (PyFloat (Fin q)).

End Heuristics.
Export Heuristics.

(** ** Computations under the deadline clock *)

(** The outcome of a call: a value together with the number of clock
    readings taken so far, or [SearchTimeout] raised after that many. *)
Inductive result (A : Type) : Type :=
| Done (a : A) (clock : nat)
| SearchTimeout (clock : nat).
Arguments Done {A} a clock.
Arguments SearchTimeout {A} clock.

Definition M (A : Type) : Type := nat -> result A.

Definition ret {A : Type} (a : A) : M A := fun t => Done a t.

Definition bind {A B : Type} (m : M A) (k : A -> M B) : M B :=
  fun t =>
    match m t with
    | Done a t' => k a t'
    | SearchTimeout t' => SearchTimeout t'
    end.

(** [try: body except SearchTimeout: pass], followed by [handler]. *)
Definition try_except {A : Type} (body : M A) (handler : M A) : M A :=
  fun t =>
    match body t with
    | Done a t' => Done a t'
    | SearchTimeout t' => handler t'
    end.

Notation "x <- m ;; k" := (bind m (fun x => k))
  (at level 61, m at next level, right associativity).
Notation "m ;; k" := (bind m (fun _ => k))
  (at level 61, right associativity).

(** [IsolationPlayer]: the attributes set by [__init__].  [ident] is the
    player object itself, as the board and the heuristics see it. *)
Record IsolationPlayer : Type := mkPlayer {
  ident : Player;
  search_depth : Z;
  score : Board -> Player -> pyfloat;
  TIMER_THRESHOLD : Q
}.

(** [IsolationPlayer()] with the default arguments of [__init__]. *)
Definition default_player (p : Player) : IsolationPlayer :=
  {| ident := p; search_depth := 3; score := custom_score;
     TIMER_THRESHOLD := 10 |}.

(** [if self.time_left() < self.TIMER_THRESHOLD: raise SearchTimeout()] *)
Definition check_deadline (self : IsolationPlayer) (time_left : nat -> Q)
  : M unit :=
  fun t =>
    if Qltb (time_left t) (TIMER_THRESHOLD self)
    then SearchTimeout (S t)
    else Done tt (S t).

(** [not legal_moves] *)
Definition is_empty {A : Type} (l : list A) : bool :=
  match l with [] => true | _ :: _ => false end.

(** ** MinimaxPlayer *)

Module MinimaxPlayer.
Section Methods.

Variable self : IsolationPlayer.
Variable time_left : nat -> Q.

(** The [for move in legal_moves] loop of [min_play]; [child] is the
    recursive call on the forecast state. *)
Definition min_play_loop (child : Board -> M pyfloat)
  : list (Move * Board) -> pyfloat -> M pyfloat :=
  fix loop moves lowest_score :=
    match moves with
    | [] => ret lowest_score
    | (move, future_state_min) :: rest =>
        v <- child future_state_min ;;
        loop rest (pymin lowest_score v)
    end.

(** The [for move in legal_moves] loop of [max_play]. *)
Definition max_play_loop (child : Board -> M pyfloat)
  : list (Move * Board) -> pyfloat -> M pyfloat :=
  fix loop moves highest_score :=
    match moves with
    | [] => ret highest_score
    | (move, future_state_max) :: rest =>
        v <- child future_state_max ;;
        loop rest (pymax highest_score v)
    end.

Fixpoint min_play (future_state : Board) (depth : Z) {struct future_state}
  : M pyfloat :=
  check_deadline self time_left ;;
  let legal_moves := successors future_state in
  if (depth =? 0) || is_empty legal_moves
  then ret (score self future_state (ident self))
  else min_play_loop (fun s => max_play s (depth - 1)) legal_moves PInf
with max_play (future_state : Board) (depth : Z) {struct future_state}
  : M pyfloat :=
  check_deadline self time_left ;;
  let legal_moves := successors future_state in
  if (depth =? 0) || is_empty legal_moves
  then ret (score self future_state (ident self))
  else max_play_loop (fun s => min_play s (depth - 1)) legal_moves NInf.

(** The root loop of [minimax]. *)
Fixpoint minimax_loop (depth : Z) (moves : list (Move * Board))
    (best_score : pyfloat) (best_move : Move) : M Move :=
  match moves with
  | [] => ret best_move
  | (move, future_state) :: rest =>
      score <- min_play future_state (depth - 1) ;;
      if fltb best_score score
      then minimax_loop depth rest score move
      else minimax_loop depth rest best_score best_move
  end.

Definition minimax (game : Board) (depth : Z) : M Move :=
  check_deadline self time_left ;;
  let legal_moves := successors game in
  match legal_moves with
  | [] => ret no_move
  | (first, _) :: _ => minimax_loop depth legal_moves NInf first
  end.

(** [get_move(self, game, time_left)]: [best_move] is [(-1, -1)] and is
    what the code returns after the [except] clause. *)
Definition get_move (game : Board) : M Move :=
  let best_move := no_move in
  try_except (minimax game (search_depth self)) (ret best_move).

End Methods.
End MinimaxPlayer.

(** ** AlphaBetaPlayer *)

Module AlphaBetaPlayer.
Section Methods.

Variable self : IsolationPlayer.
Variable time_left : nat -> Q.

(** The loop of [ab_min_play]: [beta] is lowered after each child and the
    loop is left ([break]) as soon as [beta <= alpha]; the function
    returns [beta]. *)
Definition ab_min_play_loop (child : Board -> pyfloat -> pyfloat -> M pyfloat)
    (alpha : pyfloat)
  : list (Move * Board) -> pyfloat -> pyfloat -> M pyfloat :=
  fix loop moves lowest_score beta :=
    match moves with
    | [] => ret beta
    | (move, future_state_min) :: rest =>
        v <- child future_state_min alpha beta ;;
        let lowest_score := pymin lowest_score v in
        let beta := pymin beta lowest_score in
        if fleb beta alpha then ret beta
        else loop rest lowest_score beta
    end.

(** The loop of [ab_max_play]: [alpha] is raised after each child and the
    loop is left as soon as [alpha >= beta]; the function returns
    [alpha]. *)
Definition ab_max_play_loop (child : Board -> pyfloat -> pyfloat -> M pyfloat)
    (beta : pyfloat)
  : list (Move * Board) -> pyfloat -> pyfloat -> M pyfloat :=
  fix loop moves highest_score alpha :=
    match moves with
    | [] => ret alpha
    | (move, future_state_max) :: rest =>
        v <- child future_state_max alpha beta ;;
        let highest_score := pymax highest_score v in
        let alpha := pymax alpha highest_score in
        if fleb beta alpha then ret alpha
        else loop rest highest_score alpha
    end.

Fixpoint ab_min_play (future_state : Board) (depth : Z)
    (alpha beta : pyfloat) {struct future_state} : M pyfloat :=
  check_deadline self time_left ;;
  let legal_moves := successors future_state in
  if (depth =? 0) || is_empty legal_moves
  then ret (score self future_state (ident self))
  else ab_min_play_loop (fun s a b => ab_max_play s (depth - 1) a b)
         alpha legal_moves PInf beta
with ab_max_play (future_state : Board) (depth : Z)
    (alpha beta : pyfloat) {struct future_state} : M pyfloat :=
  check_deadline self time_left ;;
  let legal_moves := successors future_state in
  if (depth =? 0) || is_empty legal_moves
  then ret (score self future_state (ident self))
  else ab_max_play_loop (fun s a b => ab_min_play s (depth - 1) a b)
         beta legal_moves NInf alpha.

(** The root loop of [alphabeta]: [beta] stays the caller's bound,
    [alpha] follows the scores seen, and a score above [beta] returns the
    move at once. *)
Fixpoint alphabeta_loop (depth : Z) (beta : pyfloat)
    (moves : list (Move * Board))
    (alpha best_score : pyfloat) (best_move : Move) : M Move :=
  match moves with
  | [] => ret best_move
  | (move, future_state) :: rest =>
      score <- ab_min_play future_state (depth - 1) alpha beta ;;
      if fltb beta score then ret move
      else
        let alpha := pymax alpha score in
        if fltb best_score score
        then alphabeta_loop depth beta rest alpha score move
        else alphabeta_loop depth beta rest alpha best_score best_move
  end.

Definition alphabeta (game : Board) (depth : Z) (alpha beta : pyfloat)
  : M Move :=
  check_deadline self time_left ;;
  let legal_moves := successors game in
  match legal_moves with
  | [] => ret no_move
  | (first, _) :: _ =>
      alphabeta_loop depth beta legal_moves alpha NInf first
  end.

(** The [while True] loop of [get_move], run for at most [fuel] rounds:
    [None] when the loop is still running after them.  The [except]
    clause ends the loop with the [best_move] of the last round that
    returned. *)
Fixpoint deepening (fuel : nat) (game : Board) (depth : Z)
    (best_move : Move) (t : nat) : option (Move * nat) :=
  match fuel with
  | O => None
  | S fuel' =>
      match alphabeta game depth NInf PInf t with
      | Done m t' => deepening fuel' game (depth + 1) m t'
      | SearchTimeout t' => Some (best_move, t')
      end
  end.

(** [get_move(self, game, time_left)]: the move returned and the clock
    readings taken. *)
Definition get_move (fuel : nat) (game : Board) (t : nat)
  : option (Move * nat) :=
  let legal_moves := get_legal_moves_of game (ident self) in
  match legal_moves with
  | [] => Some (no_move, t)
  | first :: _ =>
      let best_move := first in
      deepening fuel game 1 best_move t
  end.

End Methods.
End AlphaBetaPlayer.

(** ** Example positions *)

Module Examples.

Definition other (p : Player) : Player :=
  match p with Player1 => Player2 | Player2 => Player1 end.

(** A snapshot in which [to_move] is to play the moves of [succ], the
    waiting player would have [waiting_moves], and a player to move
    without a move has lost. *)
Definition position (to_move : Player) (waiting_moves : list Move)
    (h w : Z) (blanks : list Move) (succ : list (Move * Board)) : Board :=
  {| is_winner := fun p => negb (Player_eqb p to_move) && is_empty succ;
     is_loser := fun p => Player_eqb p to_move && is_empty succ;
     get_legal_moves_of :=
       fun p => if Player_eqb p to_move then map fst succ else waiting_moves;
     get_opponent := other;
     height := h;
     width := w;
     get_blank_spaces := blanks;
     successors := succ |}.

(** Player 1 is to move and has none. *)
Definition stuck : Board :=
  position Player1 [(2, 1)] 3 3 [(2, 1); (1, 2)] [].

(** The trap: after [(0, 0)] player 2 takes the only cell left to
    player 1; after [(0, 1)] player 2 runs out of moves two plies later. *)
Definition trap_end : Board := position Player1 [] 3 3 [] [].
Definition trap : Board :=
  position Player2 [(1, 2)] 3 3 [(1, 2)] [((1, 2), trap_end)].
Definition safe_end : Board := position Player2 [] 3 3 [] [].
Definition safe_reply : Board :=
  position Player1 [] 3 3 [(2, 2)] [((2, 2), safe_end)].
Definition safe : Board :=
  position Player2 [(2, 2)] 3 3 [(2, 0); (2, 1); (2, 2)]
    [((2, 0), safe_reply); ((2, 1), safe_reply)].
Definition crossroads : Board :=
  position Player1 [(2, 0); (2, 1)] 3 3
    [(0, 0); (0, 1); (1, 2); (2, 0); (2, 1); (2, 2)]
    [((0, 0), trap); ((0, 1), safe)].

(** Clocks: one that never runs low, one that is low from the start, and
    one that runs low from its [n]-th reading on. *)
Definition plenty : nat -> Q := fun _ => 1000%Q.
Definition expired : nat -> Q := fun _ => 0%Q.
Definition low_from (n : nat) : nat -> Q :=
  fun t => if (t <? n)%nat then 1000%Q else 0%Q.

Definition me : IsolationPlayer := default_player Player1.

(** Three moves for player 1: the second leads to the state the default
    heuristic likes best. *)
Definition detour : Board :=
  position Player1 [(2, 0); (2, 1)] 3 3
    [(0, 0); (0, 1); (1, 2); (2, 0); (2, 1); (2, 2)]
    [((0, 1), safe); ((0, 0), trap); ((1, 2), safe)].

End Examples.


(** ** Notions used to state the properties *)

Definition below_threshold (self : IsolationPlayer) (time_left : nat -> Q)
    (t : nat) : Prop :=
  (time_left t < TIMER_THRESHOLD self)%Q.

(** The clock never reads below the threshold. *)
Definition never_expires (self : IsolationPlayer) (time_left : nat -> Q)
  : Prop :=
  forall t, ~ below_threshold self time_left t.

(** [m] is the first move of [moves], in enumeration order, whose
    successor state has the highest value under [h]. *)
Definition first_best (h : Board -> pyfloat) (moves : list (Move * Board))
    (m : Move) : Prop :=
  exists i c,
    nth_error moves i = Some (m, c) /\
    (forall j m' c', nth_error moves j = Some (m', c') -> fle (h c') (h c)) /\
    (forall j m' c',
        (j < i)%nat -> nth_error moves j = Some (m', c') -> flt (h c') (h c)).

(** The first [k] rounds of the loop of [AlphaBetaPlayer.get_move], from
    depth [depth] on, all returned: the result is the move of the last
    one ([best_move] when [k = 0]) and the clock it left. *)
Fixpoint rounds_returned (self : IsolationPlayer) (time_left : nat -> Q)
    (k : nat) (game : Board) (depth : Z) (best_move : Move) (t : nat)
  : option (Move * nat) :=
  match k with
  | O => Some (best_move, t)
  | S k' =>
      match AlphaBetaPlayer.alphabeta self time_left game depth NInf PInf t with
      | Done m t' => rounds_returned self time_left k' game (depth + 1) m t'
      | SearchTimeout _ => None
      end
  end.

(** [below_beta self time_left depth beta moves (alpha, t) (alpha', t')]:
    the root loop of [alphabeta], entered with [alpha] at clock [t], scores
    every child of [moves] in turn; each call returns, no score exceeds
    [beta], and the loop stands at [alpha'] and clock [t'] after them. *)
Inductive below_beta (self : IsolationPlayer) (time_left : nat -> Q)
    (depth : Z) (beta : pyfloat)
  : list (Move * Board) -> pyfloat * nat -> pyfloat * nat -> Prop :=
| below_beta_nil : forall st, below_beta self time_left depth beta [] st st
| below_beta_cons : forall move future_state rest alpha t score t1 st',
    AlphaBetaPlayer.ab_min_play self time_left future_state (depth - 1)
      alpha beta t = Done score t1 ->
    fle score beta ->
    below_beta self time_left depth beta rest (pymax alpha score, t1) st' ->
    below_beta self time_left depth beta ((move, future_state) :: rest)
      (alpha, t) st'.

(** Every [SearchTimeout] of the computation [m] is raised by a deadline
    check that read the clock below the threshold, at a reading [n] not
    before the computation started; a value leaves the clock where it was
    or later. *)
Definition timeouts_justified (self : IsolationPlayer)
    (time_left : nat -> Q) {A : Type} (m : M A) : Prop :=
  forall t,
    match m t with
    | Done _ t' => (t <= t')%nat
    | SearchTimeout t' =>
        exists n, t' = S n /\ (t <= n)%nat /\ below_threshold self time_left n
    end.

(** The computation [m] returns [v] from whatever clock state it starts. *)
Definition returns {A : Type} (m : M A) (v : A) : Prop :=
  forall t, exists t', m t = Done v t'.

(** What the alpha-beta result [r] of a node tells about its minimax
    value [v] under the window [(alpha, beta)]: it is [v] when [v] lies
    strictly inside, and lies on the same side as [v] otherwise. *)
Definition within_window (alpha beta v r : pyfloat) : Prop :=
  (fle v alpha -> fle r alpha) /\
  (flt alpha v -> flt v beta -> feq r v) /\
  (fle beta v -> fle beta r).

(** What is known of a node: its minimax value, and for every window an
    alpha-beta result that respects the window. *)
Definition node_ok (mm : M pyfloat) (ab : pyfloat -> pyfloat -> M pyfloat)
  : Prop :=
  exists v,
    returns mm v /\
    forall a b, exists r,
        returns (ab a b) r /\ (flt a b -> within_window a b v r).

Definition child_ok (child_mm : Board -> M pyfloat)
    (child_ab : Board -> pyfloat -> pyfloat -> M pyfloat)
    (mc : Move * Board) : Prop :=
  node_ok (child_mm (snd mc)) (child_ab (snd mc)).

(** The readings of the computation [m] are taken one after the other,
    and it stops at the first one below the threshold: a value means
    that no reading taken was below it, a [SearchTimeout] that the last
    reading taken was the first below it. *)
Definition stops_at_first_low (self : IsolationPlayer)
    (time_left : nat -> Q) {A : Type} (m : M A) : Prop :=
  forall t,
    match m t with
    | Done _ t' =>
        (t <= t')%nat /\
        forall i, (t <= i < t')%nat -> ~ below_threshold self time_left i
    | SearchTimeout t' =>
        exists n, t' = S n /\ (t <= n)%nat /\
                  below_threshold self time_left n /\
                  forall i, (t <= i < n)%nat ->
                            ~ below_threshold self time_left i
    end.

(** [n] is the first reading from [t] on that is below the threshold. *)
Definition first_low (self : IsolationPlayer) (time_left : nat -> Q)
    (t n : nat) : Prop :=
  (t <= n)%nat /\ below_threshold self time_left n /\
  forall i, (t <= i < n)%nat -> ~ below_threshold self time_left i.

(** [reachable b s]: the state [s] is [b] or comes from [b] by a
    sequence of legal moves. *)
Inductive reachable : Board -> Board -> Prop :=
| reachable_here : forall b, reachable b b
| reachable_move : forall b move future_state s,
    In (move, future_state) (successors b) ->
    reachable future_state s ->
    reachable b s.

(** [m] is the first move of [moves] whose successor state has the
    highest value, the value of a state being given by the relation
    [value]. *)
Definition first_best_by (value : Board -> pyfloat -> Prop)
    (moves : list (Move * Board)) (m : Move) : Prop :=
  exists i c vc,
    nth_error moves i = Some (m, c) /\
    value c vc /\
    forall j m' c' v',
      nth_error moves j = Some (m', c') -> value c' v' ->
      fle v' vc /\ ((j < i)%nat -> flt v' vc).

(** The computation [m] returns [a] after exactly [n] readings of the
    clock, from whatever clock state it starts. *)
Definition runs {A : Type} (m : M A) (a : A) (n : nat) : Prop :=
  forall t, m t = Done a (n + t)%nat.

(** The alpha-beta search of a node takes, for every window, no more
    readings than its minimax search. *)
Definition node_cheaper (mm : M pyfloat)
    (ab : pyfloat -> pyfloat -> M pyfloat) : Prop :=
  exists v n,
    runs mm v n /\
    forall a b, exists r k, runs (ab a b) r k /\ (k <= n)%nat.

(** ** The search with its calls to the board on record *)

Inductive event : Type :=
| GetLegalMoves (game : Board)               (* game.get_legal_moves() *)
| ForecastMove (game : Board) (move : Move)  (* game.forecast_move(move) *)
| Score (game : Board).                      (* self.score(game, self) *)

(** The outcome of a call: a value or [SearchTimeout], with the number of
    clock readings taken and the calls made so far. *)
Inductive outcome (A : Type) : Type :=
| Returned (a : A) (clock : nat) (log : list event)
| Raised (clock : nat) (log : list event).
Arguments Returned {A} a clock log.
Arguments Raised {A} clock log.

Definition T (A : Type) : Type := nat -> list event -> outcome A.

Definition tret {A : Type} (a : A) : T A := fun t log => Returned a t log.

Definition tbind {A B : Type} (m : T A) (k : A -> T B) : T B :=
  fun t log =>
    match m t log with
    | Returned a t' log' => k a t' log'
    | Raised t' log' => Raised t' log'
    end.

(** A call to the board or to the heuristic is written down. *)
Definition call (e : event) : T unit :=
  fun t log => Returned tt t (log ++ [e]).

Declare Scope traced_scope.
Delimit Scope traced_scope with traced.
Notation "x <- m ;; k" := (tbind m (fun x => k))
  (at level 61, m at next level, right associativity) : traced_scope.
Notation "m ;; k" := (tbind m (fun _ => k))
  (at level 61, right associativity) : traced_scope.

(** Forgetting the record. *)
Definition erase {A : Type} (o : outcome A) : result A :=
  match o with
  | Returned a t _ => Done a t
  | Raised t _ => SearchTimeout t
  end.

(** The search functions once more, this time keeping a record of what
    they ask of the board and of the heuristic, in the order of the
    calls.  Dropping the record gives back the functions of
    [MinimaxPlayer] and [AlphaBetaPlayer]. *)
Module Traced.
Local Open Scope traced_scope.

Section Methods.

Variable self : IsolationPlayer.
Variable time_left : nat -> Q.

(** [if self.time_left() < self.TIMER_THRESHOLD: raise SearchTimeout()] *)
Definition check_deadline : T unit :=
  fun t log =>
    if Qltb (time_left t) (TIMER_THRESHOLD self)
    then Raised (S t) log
    else Returned tt (S t) log.

Definition min_play_loop (parent : Board) (child : Board -> T pyfloat)
  : list (Move * Board) -> pyfloat -> T pyfloat :=
  fix loop moves lowest_score :=
    match moves with
    | [] => tret lowest_score
    | (move, future_state_min) :: rest =>
        call (ForecastMove parent move) ;;
        v <- child future_state_min ;;
        loop rest (pymin lowest_score v)
    end.

Definition max_play_loop (parent : Board) (child : Board -> T pyfloat)
  : list (Move * Board) -> pyfloat -> T pyfloat :=
  fix loop moves highest_score :=
    match moves with
    | [] => tret highest_score
    | (move, future_state_max) :: rest =>
        call (ForecastMove parent move) ;;
        v <- child future_state_max ;;
        loop rest (pymax highest_score v)
    end.

Fixpoint min_play (future_state : Board) (depth : Z) {struct future_state}
  : T pyfloat :=
  check_deadline ;;
  call (GetLegalMoves future_state) ;;
  let legal_moves := successors future_state in
  if (depth =? 0) || is_empty legal_moves
  then call (Score future_state) ;;
       tret (score self future_state (ident self))
  else min_play_loop future_state (fun s => max_play s (depth - 1))
         legal_moves PInf
with max_play (future_state : Board) (depth : Z) {struct future_state}
  : T pyfloat :=
  check_deadline ;;
  call (GetLegalMoves future_state) ;;
  let legal_moves := successors future_state in
  if (depth =? 0) || is_empty legal_moves
  then call (Score future_state) ;;
       tret (score self future_state (ident self))
  else max_play_loop future_state (fun s => min_play s (depth - 1))
         legal_moves NInf.

Fixpoint minimax_loop (game : Board) (depth : Z)
    (moves : list (Move * Board))
    (best_score : pyfloat) (best_move : Move) : T Move :=
  match moves with
  | [] => tret best_move
  | (move, future_state) :: rest =>
      call (ForecastMove game move) ;;
      score <- min_play future_state (depth - 1) ;;
      if fltb best_score score
      then minimax_loop game depth rest score move
      else minimax_loop game depth rest best_score best_move
  end.

Definition minimax (game : Board) (depth : Z) : T Move :=
  check_deadline ;;
  call (GetLegalMoves game) ;;
  let legal_moves := successors game in
  match legal_moves with
  | [] => tret no_move
  | (first, _) :: _ => minimax_loop game depth legal_moves NInf first
  end.

Definition ab_min_play_loop (parent : Board)
    (child : Board -> pyfloat -> pyfloat -> T pyfloat) (alpha : pyfloat)
  : list (Move * Board) -> pyfloat -> pyfloat -> T pyfloat :=
  fix loop moves lowest_score beta :=
    match moves with
    | [] => tret beta
    | (move, future_state_min) :: rest =>
        call (ForecastMove parent move) ;;
        v <- child future_state_min alpha beta ;;
        let lowest_score := pymin lowest_score v in
        let beta := pymin beta lowest_score in
        if fleb beta alpha then tret beta
        else loop rest lowest_score beta
    end.

Definition ab_max_play_loop (parent : Board)
    (child : Board -> pyfloat -> pyfloat -> T pyfloat) (beta : pyfloat)
  : list (Move * Board) -> pyfloat -> pyfloat -> T pyfloat :=
  fix loop moves highest_score alpha :=
    match moves with
    | [] => tret alpha
    | (move, future_state_max) :: rest =>
        call (ForecastMove parent move) ;;
        v <- child future_state_max alpha beta ;;
        let highest_score := pymax highest_score v in
        let alpha := pymax alpha highest_score in
        if fleb beta alpha then tret alpha
        else loop rest highest_score alpha
    end.

Fixpoint ab_min_play (future_state : Board) (depth : Z)
    (alpha beta : pyfloat) {struct future_state} : T pyfloat :=
  check_deadline ;;
  call (GetLegalMoves future_state) ;;
  let legal_moves := successors future_state in
  if (depth =? 0) || is_empty legal_moves
  then call (Score future_state) ;;
       tret (score self future_state (ident self))
  else ab_min_play_loop future_state
         (fun s a b => ab_max_play s (depth - 1) a b)
         alpha legal_moves PInf beta
with ab_max_play (future_state : Board) (depth : Z)
    (alpha beta : pyfloat) {struct future_state} : T pyfloat :=
  check_deadline ;;
  call (GetLegalMoves future_state) ;;
  let legal_moves := successors future_state in
  if (depth =? 0) || is_empty legal_moves
  then call (Score future_state) ;;
       tret (score self future_state (ident self))
  else ab_max_play_loop future_state
         (fun s a b => ab_min_play s (depth - 1) a b)
         beta legal_moves NInf alpha.

Fixpoint alphabeta_loop (game : Board) (depth : Z) (beta : pyfloat)
    (moves : list (Move * Board))
    (alpha best_score : pyfloat) (best_move : Move) : T Move :=
  match moves with
  | [] => tret best_move
  | (move, future_state) :: rest =>
      call (ForecastMove game move) ;;
      score <- ab_min_play future_state (depth - 1) alpha beta ;;
      if fltb beta score then tret move
      else
        let alpha := pymax alpha score in
        if fltb best_score score
        then alphabeta_loop game depth beta rest alpha score move
        else alphabeta_loop game depth beta rest alpha best_score best_move
  end.

Definition alphabeta (game : Board) (depth : Z) (alpha beta : pyfloat)
  : T Move :=
  check_deadline ;;
  call (GetLegalMoves game) ;;
  let legal_moves := successors game in
  match legal_moves with
  | [] => tret no_move
  | (first, _) :: _ =>
      alphabeta_loop game depth beta legal_moves alpha NInf first
  end.

End Methods.
End Traced.

(** A computation that only adds to the record, takes its readings one
    after the other, and raises [SearchTimeout] only at the first reading
    below the threshold. *)
Definition orderly (self : IsolationPlayer) (time_left : nat -> Q)
    {A : Type} (m : T A) : Prop :=
  forall t log,
    match m t log with
    | Returned _ t' log' =>
        (t <= t')%nat /\ (exists evs, log' = log ++ evs) /\
        forall i, (t <= i < t')%nat -> ~ below_threshold self time_left i
    | Raised t' log' =>
        exists n, t' = S n /\ (t <= n)%nat /\ (exists evs, log' = log ++ evs) /\
                  below_threshold self time_left n /\
                  forall i, (t <= i < n)%nat ->
                            ~ below_threshold self time_left i
    end.

(** What C6 says of a search function called on [game], as the code has
    it.  [m] is the call, started at the clock reading [t] with the record
    [log]:
    - it raises [SearchTimeout] at its own entry, after the one reading
      [t], exactly when that reading is below the threshold;
    - when it does, the record is as it was: no move was enumerated, no
      successor generated, no state evaluated;
    - when the entry check passes, the next thing done is the enumeration
      of the moves of [game], and a [SearchTimeout] that still ends the
      call is raised after a later reading [n], the first one below the
      threshold after the entry. *)
Definition deadline_check_first (self : IsolationPlayer)
    (time_left : nat -> Q) (game : Board) {A : Type} (m : T A)
  : Prop :=
  forall t log,
    ((exists log', m t log = Raised (S t) log') <->
     below_threshold self time_left t) /\
    (below_threshold self time_left t -> m t log = Raised (S t) log) /\
    (~ below_threshold self time_left t ->
     match m t log with
     | Returned _ t' log' =>
         (t < t')%nat /\
         exists evs, log' = log ++ GetLegalMoves game :: evs
     | Raised t' log' =>
         exists n evs,
           t' = S n /\ (t < n)%nat /\
           below_threshold self time_left n /\
           (forall i, (t < i < n)%nat -> ~ below_threshold self time_left i) /\
           log' = log ++ GetLegalMoves game :: evs
     end).

(** The recorded computation [m], its record dropped, is [m0]. *)
Definition erases {A : Type} (m : T A) (m0 : M A) : Prop :=
  forall t log, erase (m t log) = m0 t.

(** * Properties *)

Import Examples.

(** ** Order on floats *)

Lemma Qltb_iff (x y : Q) : Qltb x y = true <-> (x < y)%Q.
Proof. unfold Qltb, Qlt. apply Z.ltb_lt. Qed.

Lemma Qltb_false_iff (x y : Q) : Qltb x y = false <-> (y <= x)%Q.
Proof. unfold Qltb, Qle. apply Z.ltb_ge. Qed.

Lemma fleb_fltb (a b : pyfloat) : fleb a b = negb (fltb b a).
Proof.
  destruct a as [|x|], b as [|y|]; simpl; try reflexivity.
  destruct (Qltb y x) eqn:E.
  - apply Qltb_iff in E. destruct (Qle_bool x y) eqn:F; [|reflexivity].
    apply Qle_bool_iff in F. lra.
  - apply Qltb_false_iff in E. apply Qle_bool_iff. exact E.
Qed.

Lemma fleb_true_iff (a b : pyfloat) : fleb a b = true <-> fle a b.
Proof. rewrite fleb_fltb. unfold fle. destruct (fltb b a); simpl; split; congruence. Qed.

Lemma fleb_false_iff (a b : pyfloat) : fleb a b = false <-> flt b a.
Proof. rewrite fleb_fltb. unfold flt. destruct (fltb b a); simpl; split; congruence. Qed.

(** Case analysis on concrete shapes, then linear arithmetic on Q. *)
Ltac forder :=
  unfold within_window, feq, fle, flt, pymin, pymax in *;
  repeat match goal with
         | a : pyfloat |- _ => destruct a
         end;
  simpl in *;
  repeat match goal with
         | H : Qltb _ _ = true |- _ => apply Qltb_iff in H
         | H : Qltb _ _ = false |- _ => apply Qltb_false_iff in H
         | |- context [Qltb ?x ?y] =>
             let E := fresh "E" in destruct (Qltb x y) eqn:E; simpl in *
         | H : context [Qltb ?x ?y] |- _ =>
             let E := fresh "E" in destruct (Qltb x y) eqn:E; simpl in *
         end;
  intuition (try congruence; try (exfalso; lra)).

Lemma flt_irrefl (a : pyfloat) : fltb a a = false.
Proof. forder. Qed.

Lemma fle_refl (a : pyfloat) : fle a a.
Proof. apply flt_irrefl. Qed.

Lemma flt_fle (a b : pyfloat) : flt a b -> fle a b.
Proof. intros; forder. Qed.

Lemma flt_trans (a b c : pyfloat) : flt a b -> flt b c -> flt a c.
Proof. intros; forder. Qed.

Lemma fle_trans (a b c : pyfloat) : fle a b -> fle b c -> fle a c.
Proof. intros; forder. Qed.

Lemma flt_fle_trans (a b c : pyfloat) : flt a b -> fle b c -> flt a c.
Proof. intros; forder. Qed.

Lemma fle_flt_trans (a b c : pyfloat) : fle a b -> flt b c -> flt a c.
Proof. intros; forder. Qed.

Lemma fle_PInf (a : pyfloat) : fle a PInf.
Proof. forder. Qed.

Lemma fle_NInf (a : pyfloat) : fle NInf a.
Proof. forder. Qed.

Lemma flt_PInf_false (a : pyfloat) : fltb PInf a = false.
Proof. reflexivity. Qed.

Lemma flt_NInf_false (a : pyfloat) : fltb a NInf = false.
Proof. destruct a; reflexivity. Qed.

Lemma flt_or_fle (a b : pyfloat) : {flt a b} + {fle b a}.
Proof. unfold flt, fle. destruct (fltb a b); [left|right]; reflexivity. Qed.


Lemma feq_refl (a : pyfloat) : feq a a.
Proof. forder. Qed.

Lemma feq_trans (a b c : pyfloat) : feq a b -> feq b c -> feq a c.
Proof. intros; forder. Qed.

(** *** Facts about one step of the pruning loops *)

Lemma min_acc V L v : fle V (pymin L v) -> fle V L /\ fle V v.
Proof. intros; forder. Qed.

Lemma max_acc V H v : fle (pymax H v) V -> fle H V /\ fle v V.
Proof. intros; forder. Qed.

Lemma min_beta_step beta lowest r :
  fle beta lowest ->
  fle (pymin beta (pymin lowest r)) beta /\
  fle (pymin beta (pymin lowest r)) r /\
  fle (pymin beta (pymin lowest r)) (pymin lowest r) /\
  (fle beta (pymin beta (pymin lowest r)) \/
   fle r (pymin beta (pymin lowest r))).
Proof. intros; forder. Qed.

Lemma max_alpha_step alpha highest r :
  fle highest alpha ->
  fle alpha (pymax alpha (pymax highest r)) /\
  fle r (pymax alpha (pymax highest r)) /\
  fle (pymax highest r) (pymax alpha (pymax highest r)) /\
  (fle (pymax alpha (pymax highest r)) alpha \/
   fle (pymax alpha (pymax highest r)) r).
Proof. intros; forder. Qed.

Lemma min_break alpha beta beta' v r :
  flt alpha beta -> within_window alpha beta v r ->
  fle beta beta' \/ fle r beta' -> fle beta' alpha -> fle v alpha.
Proof. intros; forder. Qed.

Lemma max_break alpha beta alpha' v r :
  flt alpha beta -> within_window alpha beta v r ->
  fle alpha' alpha \/ fle alpha' r -> fle beta alpha' -> fle beta v.
Proof. intros; forder. Qed.

Lemma min_continue alpha beta beta' v r :
  flt alpha beta -> within_window alpha beta v r ->
  fle beta' beta -> fle beta' r -> flt alpha beta' ->
  (flt v beta -> feq r v) /\ (fle beta v -> fle beta r) /\ fle beta' v.
Proof. intros; forder. Qed.

Lemma max_continue alpha beta alpha' v r :
  flt alpha beta -> within_window alpha beta v r ->
  fle alpha alpha' -> fle r alpha' -> flt alpha' beta ->
  (flt alpha v -> feq r v) /\ (fle v alpha -> fle r alpha) /\ fle v alpha'.
Proof. intros; forder. Qed.

Lemma min_inside beta beta' v r V :
  fle beta beta' \/ fle r beta' -> (flt v beta -> feq r v) ->
  (fle beta v -> fle beta r) -> fle V v -> flt V beta -> fle beta' V ->
  fle V beta'.
Proof. intros; forder. Qed.

Lemma max_inside alpha alpha' v r V :
  fle alpha' alpha \/ fle alpha' r -> (flt alpha v -> feq r v) ->
  (fle v alpha -> fle r alpha) -> fle v V -> flt alpha V -> fle V alpha' ->
  fle alpha' V.
Proof. intros; forder. Qed.

Lemma min_above beta beta' v r V :
  fle beta beta' \/ fle r beta' -> (fle beta v -> fle beta r) ->
  fle V v -> fle beta V -> fle beta beta'.
Proof. intros; forder. Qed.

Lemma max_below alpha alpha' v r V :
  fle alpha' alpha \/ fle alpha' r -> (fle v alpha -> fle r alpha) ->
  fle v V -> fle V alpha -> fle alpha' alpha.
Proof. intros; forder. Qed.

Lemma root_step alpha best_ab best_mm v r :
  feq alpha best_ab -> feq best_ab best_mm ->
  (flt alpha PInf -> within_window alpha PInf v r) ->
  fltb best_mm v = fltb best_ab r /\
  fltb alpha r = fltb best_ab r /\
  (fltb best_ab r = true -> feq r v).
Proof. intros; forder. Qed.

Lemma check_deadline_pass self time_left t :
  ~ below_threshold self time_left t ->
  check_deadline self time_left t = Done tt (S t).
Proof.
  unfold below_threshold, check_deadline. intros H.
  destruct (Qltb _ _) eqn:E; [|reflexivity].
  apply Qltb_iff in E. contradiction.
Qed.

Lemma check_deadline_fire self time_left t :
  below_threshold self time_left t ->
  check_deadline self time_left t = SearchTimeout (S t).
Proof.
  unfold below_threshold, check_deadline. intros H.
  apply Qltb_iff in H. rewrite H. reflexivity.
Qed.

Lemma below_threshold_dec self time_left t :
  {below_threshold self time_left t} + {~ below_threshold self time_left t}.
Proof.
  unfold below_threshold.
  destruct (Qltb (time_left t) (TIMER_THRESHOLD self)) eqn:E.
  - left. apply Qltb_iff. exact E.
  - right. intros H. apply Qltb_iff in H. congruence.
Qed.

Lemma plenty_never_expires : never_expires me plenty.
Proof. intros t H. unfold below_threshold, plenty in H. simpl in H. lra. Qed.

(** ** Empty move list *)

(** C4: on a state without legal moves, when the deadline check at entry
    does not fire, [minimax] and [alphabeta] both return [(-1, -1)], at
    any depth and for any window. *)
Theorem no_legal_moves_no_move
    (self : IsolationPlayer) (time_left : nat -> Q) (game : Board)
    (depth : Z) (alpha beta : pyfloat) (t : nat) :
  get_legal_moves game = [] ->
  ~ below_threshold self time_left t ->
  MinimaxPlayer.minimax self time_left game depth t = Done no_move (S t) /\
  AlphaBetaPlayer.alphabeta self time_left game depth alpha beta t
  = Done no_move (S t).
Proof.
  intros Hnil Hok.
  unfold get_legal_moves in Hnil. apply map_eq_nil in Hnil.
  unfold MinimaxPlayer.minimax, AlphaBetaPlayer.alphabeta, bind.
  rewrite (check_deadline_pass _ _ _ Hok), Hnil. split; reflexivity.
Qed.

Lemma no_legal_moves_no_move_witness :
  MinimaxPlayer.minimax me plenty stuck 3 0%nat = Done no_move 1%nat /\
  AlphaBetaPlayer.alphabeta me plenty stuck 3 NInf PInf 0%nat
  = Done no_move 1%nat.
Proof.
  apply (no_legal_moves_no_move me plenty stuck 3 NInf PInf 0%nat).
  - reflexivity.
  - apply plenty_never_expires.
Defined.

(** ** The fixed-depth driver *)

(** C10: [MinimaxPlayer.get_move] runs [minimax] once, at
    [self.search_depth]: it returns that call's move when the call
    returns, and [(-1, -1)] when the call raises [SearchTimeout], in both
    cases with the clock as that one call left it. *)
Theorem minimax_get_move_single_search
    (self : IsolationPlayer) (time_left : nat -> Q) (game : Board)
    (t : nat) :
  (forall m t',
      MinimaxPlayer.minimax self time_left game (search_depth self) t
      = Done m t' ->
      MinimaxPlayer.get_move self time_left game t = Done m t') /\
  (forall t',
      MinimaxPlayer.minimax self time_left game (search_depth self) t
      = SearchTimeout t' ->
      MinimaxPlayer.get_move self time_left game t = Done no_move t').
Proof.
  unfold MinimaxPlayer.get_move, try_except, ret.
  split; intros; rewrite H; reflexivity.
Qed.

Lemma minimax_get_move_single_search_witness :
  get_legal_moves crossroads = [(0, 0); (0, 1)] /\
  MinimaxPlayer.get_move me (low_from 2) crossroads 0%nat
  = Done no_move 3%nat.
Proof.
  split; [reflexivity|].
  apply (proj2 (minimax_get_move_single_search me (low_from 2) crossroads 0%nat)).
  vm_compute. reflexivity.
Defined.

(** ** The iterative-deepening driver *)

Lemma deepening_more_fuel self time_left fuel extra game depth best_move t r :
  AlphaBetaPlayer.deepening self time_left fuel game depth best_move t
  = Some r ->
  AlphaBetaPlayer.deepening self time_left (fuel + extra) game depth
    best_move t = Some r.
Proof.
  revert depth best_move t.
  induction fuel as [|fuel IH]; intros depth best_move t H; simpl in *.
  - discriminate.
  - destruct (AlphaBetaPlayer.alphabeta self time_left game depth NInf PInf t)
      as [m t'|t']; [apply IH|]; exact H.
Qed.

Lemma deepening_after_rounds self time_left k fuel game depth best_move t m t1 :
  rounds_returned self time_left k game depth best_move t = Some (m, t1) ->
  AlphaBetaPlayer.deepening self time_left (k + fuel) game depth best_move t
  = AlphaBetaPlayer.deepening self time_left fuel game
      (depth + Z.of_nat k) m t1.
Proof.
  revert depth best_move t.
  induction k as [|k IH]; intros depth best_move t H.
  - simpl in H. injection H as -> ->. simpl. now rewrite Z.add_0_r.
  - cbn [rounds_returned] in H. cbn [Nat.add AlphaBetaPlayer.deepening].
    destruct (AlphaBetaPlayer.alphabeta self time_left game depth NInf PInf t)
      as [m' t'|t']; [|discriminate].
    rewrite (IH _ _ _ H). f_equal. lia.
Qed.

(** C2, as the code has it: when the depth-1 search is cancelled,
    [AlphaBetaPlayer.get_move] returns the first move of
    [get_legal_moves(self)]; it returns [(-1, -1)] when that list is
    empty, without searching. *)
Theorem alphabeta_get_move_cancelled_at_depth_1
    (self : IsolationPlayer) (time_left : nat -> Q) (fuel : nat)
    (game : Board) (t t' : nat) :
  AlphaBetaPlayer.alphabeta self time_left game 1 NInf PInf t
  = SearchTimeout t' ->
  AlphaBetaPlayer.get_move self time_left (S fuel) game t
  = match get_legal_moves_of game (ident self) with
    | [] => Some (no_move, t)
    | first :: _ => Some (first, t')
    end.
Proof.
  intros H. unfold AlphaBetaPlayer.get_move.
  destruct (get_legal_moves_of game (ident self)) as [|first rest];
    [reflexivity|].
  simpl. rewrite H. reflexivity.
Qed.

Lemma alphabeta_get_move_cancelled_at_depth_1_witness :
  AlphaBetaPlayer.get_move me (low_from 2) 1 crossroads 0%nat
  = Some ((0, 0), 3%nat).
Proof.
  apply (alphabeta_get_move_cancelled_at_depth_1 me (low_from 2) 0
           crossroads 0%nat 3%nat).
  vm_compute. reflexivity.
Defined.

(** C2, as stated, fails: the clock is below the threshold from the first
    reading on, the depth-1 search is cancelled at its entry, the state
    has two legal moves, and [get_move] returns the first of them rather
    than [(-1, -1)]. *)
Lemma alphabeta_get_move_cancelled_not_sentinel :
  AlphaBetaPlayer.alphabeta me expired crossroads 1 NInf PInf 0%nat
  = SearchTimeout 1%nat /\
  get_legal_moves crossroads = [(0, 0); (0, 1)] /\
  (forall fuel,
      AlphaBetaPlayer.get_move me expired (S fuel) crossroads 0%nat
      = Some ((0, 0), 1%nat)) /\
  (0, 0) <> no_move.
Proof.
  split; [reflexivity|]. split; [reflexivity|]. split.
  - intros fuel. reflexivity.
  - discriminate.
Qed.

(** C3: when the rounds at depths 1 to k-1 returned, the round at depth k
    returns [m] and the round at depth k+1 raises [SearchTimeout],
    [AlphaBetaPlayer.get_move] returns [m]; here k = j + 1. *)
Theorem alphabeta_get_move_keeps_last_completed
    (self : IsolationPlayer) (time_left : nat -> Q) (game : Board)
    (j fuel : nat) (first : Move) (others : list Move)
    (previous m : Move) (t0 t1 t2 t3 : nat) :
  get_legal_moves_of game (ident self) = first :: others ->
  rounds_returned self time_left j game 1 first t0 = Some (previous, t1) ->
  AlphaBetaPlayer.alphabeta self time_left game (Z.of_nat j + 1) NInf PInf t1
  = Done m t2 ->
  AlphaBetaPlayer.alphabeta self time_left game (Z.of_nat j + 2) NInf PInf t2
  = SearchTimeout t3 ->
  AlphaBetaPlayer.get_move self time_left (j + 2 + fuel) game t0
  = Some (m, t3).
Proof.
  intros Hlegal Hrounds Hk Hk1.
  unfold AlphaBetaPlayer.get_move. rewrite Hlegal.
  replace (j + 2 + fuel)%nat with (j + (2 + fuel))%nat by lia.
  rewrite (deepening_after_rounds _ _ _ _ _ _ _ _ _ _ Hrounds).
  cbn [Nat.add AlphaBetaPlayer.deepening].
  replace (1 + Z.of_nat j) with (Z.of_nat j + 1) by lia.
  rewrite Hk.
  replace (Z.of_nat j + 1 + 1) with (Z.of_nat j + 2) by lia.
  rewrite Hk1. reflexivity.
Qed.

Lemma alphabeta_get_move_keeps_last_completed_witness :
  AlphaBetaPlayer.get_move me (low_from 12) 4 crossroads 0%nat
  = Some ((0, 1), 13%nat).
Proof.
  apply (alphabeta_get_move_keeps_last_completed me (low_from 12) crossroads
           1 1 (0, 0) [(0, 1)] (0, 0) (0, 1) 0%nat 3%nat 9%nat 13%nat);
    vm_compute; reflexivity.
Defined.

(** ** The returned move is a legal move *)

Lemma bind_Done {A B : Type} (m : M A) (k : A -> M B) t b t' :
  bind m k t = Done b t' ->
  exists a t1, m t = Done a t1 /\ k a t1 = Done b t'.
Proof.
  unfold bind. destruct (m t) as [a t1|t1]; [|discriminate].
  intros H. exists a, t1. split; [reflexivity|exact H].
Qed.

Lemma minimax_loop_returns_seen self time_left depth moves :
  forall best_score best_move t m t',
    MinimaxPlayer.minimax_loop self time_left depth moves best_score
      best_move t = Done m t' ->
    m = best_move \/ In m (map fst moves).
Proof.
  induction moves as [|[move future_state] rest IH];
    intros best_score best_move t m t' H.
  - left. inversion H. reflexivity.
  - cbn [MinimaxPlayer.minimax_loop] in H.
    apply bind_Done in H. destruct H as (score & t1 & _ & H).
    destruct (fltb best_score score); apply IH in H; simpl;
      destruct H as [->|H]; auto.
Qed.

Lemma alphabeta_loop_returns_seen self time_left depth beta moves :
  forall alpha best_score best_move t m t',
    AlphaBetaPlayer.alphabeta_loop self time_left depth beta moves alpha
      best_score best_move t = Done m t' ->
    m = best_move \/ In m (map fst moves).
Proof.
  induction moves as [|[move future_state] rest IH];
    intros alpha best_score best_move t m t' H.
  - left. inversion H. reflexivity.
  - cbn [AlphaBetaPlayer.alphabeta_loop] in H.
    apply bind_Done in H. destruct H as (score & t1 & _ & H).
    destruct (fltb beta score).
    + inversion H. subst. right. left. reflexivity.
    + destruct (fltb best_score score); apply IH in H; simpl;
        destruct H as [->|H]; auto.
Qed.

(** C9: on a state with legal moves, a move returned by [minimax] or by
    [alphabeta] (any depth, any window) is one of the state's legal
    moves; in particular it is not [(-1, -1)] unless that is listed as a
    legal move. *)
Theorem returned_move_is_legal
    (self : IsolationPlayer) (time_left : nat -> Q) (game : Board)
    (depth : Z) (alpha beta : pyfloat) (t t' : nat) (m : Move) :
  get_legal_moves game <> [] ->
  MinimaxPlayer.minimax self time_left game depth t = Done m t' \/
  AlphaBetaPlayer.alphabeta self time_left game depth alpha beta t
  = Done m t' ->
  In m (get_legal_moves game) /\
  (~ In no_move (get_legal_moves game) -> m <> no_move).
Proof.
  intros Hne H.
  assert (Hin : In m (get_legal_moves game)).
  { unfold get_legal_moves in *.
    destruct (successors game) as [|[first s] rest] eqn:Hs;
      [contradiction Hne; reflexivity|].
    destruct H as [H|H].
    - unfold MinimaxPlayer.minimax in H. rewrite Hs in H.
      apply bind_Done in H. destruct H as (_ & t1 & _ & H).
      apply minimax_loop_returns_seen in H.
      destruct H as [->|H]; [left; reflexivity|exact H].
    - unfold AlphaBetaPlayer.alphabeta in H. rewrite Hs in H.
      apply bind_Done in H. destruct H as (_ & t1 & _ & H).
      apply alphabeta_loop_returns_seen in H.
      destruct H as [->|H]; [left; reflexivity|exact H]. }
  split; [exact Hin|].
  intros Hno ->. contradiction.
Qed.

Lemma returned_move_is_legal_witness :
  In (0, 1) (get_legal_moves crossroads) /\
  (~ In no_move (get_legal_moves crossroads) -> (0, 1) <> no_move).
Proof.
  apply (returned_move_is_legal me plenty crossroads 2 NInf PInf
           0%nat 6%nat (0, 1)).
  - discriminate.
  - left. vm_compute. reflexivity.
Defined.

(** ** The heuristics against the evaluator contract *)

Lemma opp_diff_meets_contract game player :
  meets_contract game player (Some (PyFloat (opp_diff game player))).
Proof.
  unfold meets_contract, opp_diff.
  destruct (is_winner game player); [reflexivity|].
  destruct (is_loser game player); [reflexivity|].
  eexists. reflexivity.
Qed.

Lemma opp_diff_defensive_meets_contract game player :
  meets_contract game player
    (Some (PyFloat (opp_diff_defensive game player))).
Proof.
  unfold meets_contract, opp_diff_defensive.
  destruct (is_winner game player); [reflexivity|].
  destruct (is_loser game player); [reflexivity|].
  eexists. reflexivity.
Qed.

Lemma opp_diff_decay_meets_contract_when_decided game player :
  is_winner game player = true \/ is_loser game player = true ->
  exists x,
    opp_diff_decay game player = Returns (Number x) /\
    meets_contract game player (Some (PyFloat x)).
Proof.
  unfold meets_contract, opp_diff_decay.
  destruct (is_winner game player).
  - intros _. exists PInf. split; reflexivity.
  - intros [H|H]; [discriminate|]. rewrite H.
    exists NInf. split; reflexivity.
Qed.

(** On [crossroads] the doubles give 3.3333333333333335, one unit in the
    last place above 10/3. *)
Example opp_diff_decay_rounds :
  opp_diff_decay crossroads Player1
  = Returns (Number (Fin (7505999378950827 # 2251799813685248))).
Proof. vm_compute. reflexivity. Qed.

Lemma opp_diff_aggressive_meets_contract_unless_lost game player :
  is_winner game player = true \/ is_loser game player = false ->
  meets_contract game player (Some (opp_diff_aggressive game player)).
Proof.
  unfold meets_contract, opp_diff_aggressive.
  destruct (is_winner game player); [reflexivity|].
  intros [H|H]; [discriminate|]. rewrite H.
  eexists. reflexivity.
Qed.

(** C7: [opp_diff_aggressive] on a lost state.  Player 1 is to move and
    has no move, so [is_loser] holds and [is_winner] does not; the
    function returns the string ['-inf'], which is not the float
    [-infinity] the contract asks for (the three other evaluators return
    the float). *)
Theorem opp_diff_aggressive_lost_returns_string :
  is_winner stuck Player1 = false /\
  is_loser stuck Player1 = true /\
  opp_diff_aggressive stuck Player1 = PyStr "-inf" /\
  opp_diff stuck Player1 = NInf /\
  opp_diff_defensive stuck Player1 = NInf /\
  opp_diff_decay stuck Player1 = Returns (Number NInf) /\
  ~ meets_contract stuck Player1 (Some (opp_diff_aggressive stuck Player1)).
Proof.
  repeat (split; [reflexivity|]).
  unfold meets_contract. simpl. discriminate.
Qed.

(** ** Unfolding the recursive entry points *)

Section Unfold.
Variable self : IsolationPlayer.
Variable time_left : nat -> Q.

Lemma min_play_eq future_state depth :
  MinimaxPlayer.min_play self time_left future_state depth
  = (check_deadline self time_left ;;
     if (depth =? 0) || is_empty (successors future_state)
     then ret (score self future_state (ident self))
     else MinimaxPlayer.min_play_loop
            (fun s => MinimaxPlayer.max_play self time_left s (depth - 1))
            (successors future_state) PInf).
Proof. destruct future_state; reflexivity. Qed.

Lemma max_play_eq future_state depth :
  MinimaxPlayer.max_play self time_left future_state depth
  = (check_deadline self time_left ;;
     if (depth =? 0) || is_empty (successors future_state)
     then ret (score self future_state (ident self))
     else MinimaxPlayer.max_play_loop
            (fun s => MinimaxPlayer.min_play self time_left s (depth - 1))
            (successors future_state) NInf).
Proof. destruct future_state; reflexivity. Qed.

Lemma ab_min_play_eq future_state depth alpha beta :
  AlphaBetaPlayer.ab_min_play self time_left future_state depth alpha beta
  = (check_deadline self time_left ;;
     if (depth =? 0) || is_empty (successors future_state)
     then ret (score self future_state (ident self))
     else AlphaBetaPlayer.ab_min_play_loop
            (fun s a b =>
               AlphaBetaPlayer.ab_max_play self time_left s (depth - 1) a b)
            alpha (successors future_state) PInf beta).
Proof. destruct future_state; reflexivity. Qed.

Lemma ab_max_play_eq future_state depth alpha beta :
  AlphaBetaPlayer.ab_max_play self time_left future_state depth alpha beta
  = (check_deadline self time_left ;;
     if (depth =? 0) || is_empty (successors future_state)
     then ret (score self future_state (ident self))
     else AlphaBetaPlayer.ab_max_play_loop
            (fun s a b =>
               AlphaBetaPlayer.ab_min_play self time_left s (depth - 1) a b)
            beta (successors future_state) NInf alpha).
Proof. destruct future_state; reflexivity. Qed.

End Unfold.

(** ** Where a [SearchTimeout] comes from *)

Section Timeouts.
Variable self : IsolationPlayer.
Variable time_left : nat -> Q.

#[local] Abbreviation justified := (timeouts_justified self time_left).

Lemma justified_ret {A : Type} (a : A) : justified (ret a).
Proof. intros t. simpl. lia. Qed.

Lemma justified_check : justified (check_deadline self time_left).
Proof.
  intros t. unfold check_deadline.
  destruct (Qltb (time_left t) (TIMER_THRESHOLD self)) eqn:E.
  - exists t. repeat split; [lia|]. apply Qltb_iff. exact E.
  - lia.
Qed.

Lemma justified_bind {A B : Type} (m : M A) (k : A -> M B) :
  justified m -> (forall a, justified (k a)) -> justified (bind m k).
Proof.
  intros Hm Hk t. unfold bind. specialize (Hm t).
  destruct (m t) as [a t1|t1].
  - specialize (Hk a t1). destruct (k a t1) as [b t2|t2].
    + lia.
    + destruct Hk as (n & -> & Hle & Hn). exists n. repeat split; [lia|exact Hn].
  - destruct Hm as (n & -> & Hle & Hn). exists n. repeat split; [lia|exact Hn].
Qed.

Lemma justified_min_play_loop child moves :
  Forall (fun mc => justified (child (snd mc))) moves ->
  forall lowest_score,
    justified (MinimaxPlayer.min_play_loop child moves lowest_score).
Proof.
  induction 1 as [|[move s] rest Hs _ IH]; intros lowest_score.
  - apply justified_ret.
  - cbn [MinimaxPlayer.min_play_loop].
    apply justified_bind; [exact Hs|]. intros v. apply IH.
Qed.

Lemma justified_max_play_loop child moves :
  Forall (fun mc => justified (child (snd mc))) moves ->
  forall highest_score,
    justified (MinimaxPlayer.max_play_loop child moves highest_score).
Proof.
  induction 1 as [|[move s] rest Hs _ IH]; intros highest_score.
  - apply justified_ret.
  - cbn [MinimaxPlayer.max_play_loop].
    apply justified_bind; [exact Hs|]. intros v. apply IH.
Qed.

Lemma justified_ab_min_play_loop child alpha moves :
  Forall (fun mc => forall a b, justified (child (snd mc) a b)) moves ->
  forall lowest_score beta,
    justified
      (AlphaBetaPlayer.ab_min_play_loop child alpha moves lowest_score beta).
Proof.
  induction 1 as [|[move s] rest Hs _ IH]; intros lowest_score beta.
  - apply justified_ret.
  - cbn [AlphaBetaPlayer.ab_min_play_loop].
    apply justified_bind; [apply Hs|]. intros v. cbv zeta.
    destruct (fleb _ alpha); [apply justified_ret|apply IH].
Qed.

Lemma justified_ab_max_play_loop child beta moves :
  Forall (fun mc => forall a b, justified (child (snd mc) a b)) moves ->
  forall highest_score alpha,
    justified
      (AlphaBetaPlayer.ab_max_play_loop child beta moves highest_score alpha).
Proof.
  induction 1 as [|[move s] rest Hs _ IH]; intros highest_score alpha.
  - apply justified_ret.
  - cbn [AlphaBetaPlayer.ab_max_play_loop].
    apply justified_bind; [apply Hs|]. intros v. cbv zeta.
    destruct (fleb beta _); [apply justified_ret|apply IH].
Qed.

Lemma justified_minimax_plays future_state :
  forall depth,
    justified (MinimaxPlayer.min_play self time_left future_state depth) /\
    justified (MinimaxPlayer.max_play self time_left future_state depth).
Proof.
  induction future_state as [b IH] using Board_tree_ind. intros depth.
  rewrite min_play_eq, max_play_eq.
  split; (apply justified_bind; [apply justified_check|]); intros _;
    (destruct ((depth =? 0) || is_empty (successors b));
     [apply justified_ret|]).
  - apply justified_min_play_loop.
    eapply Forall_impl; [|exact IH]. intros mc H. apply H.
  - apply justified_max_play_loop.
    eapply Forall_impl; [|exact IH]. intros mc H. apply H.
Qed.

Lemma justified_alphabeta_plays future_state :
  forall depth alpha beta,
    justified (AlphaBetaPlayer.ab_min_play self time_left future_state
                 depth alpha beta) /\
    justified (AlphaBetaPlayer.ab_max_play self time_left future_state
                 depth alpha beta).
Proof.
  induction future_state as [b IH] using Board_tree_ind.
  intros depth alpha beta.
  rewrite ab_min_play_eq, ab_max_play_eq.
  split; (apply justified_bind; [apply justified_check|]); intros _;
    (destruct ((depth =? 0) || is_empty (successors b));
     [apply justified_ret|]).
  - apply justified_ab_min_play_loop.
    eapply Forall_impl; [|exact IH]. intros mc H a b0. apply H.
  - apply justified_ab_max_play_loop.
    eapply Forall_impl; [|exact IH]. intros mc H a b0. apply H.
Qed.

Lemma justified_minimax_loop depth moves :
  forall best_score best_move,
    justified (MinimaxPlayer.minimax_loop self time_left depth moves
                 best_score best_move).
Proof.
  induction moves as [|[move s] rest IH]; intros best_score best_move.
  - apply justified_ret.
  - cbn [MinimaxPlayer.minimax_loop].
    apply justified_bind; [apply justified_minimax_plays|]. intros v.
    destruct (fltb best_score v); apply IH.
Qed.

Lemma justified_alphabeta_loop depth beta moves :
  forall alpha best_score best_move,
    justified (AlphaBetaPlayer.alphabeta_loop self time_left depth beta
                 moves alpha best_score best_move).
Proof.
  induction moves as [|[move s] rest IH]; intros alpha best_score best_move.
  - apply justified_ret.
  - cbn [AlphaBetaPlayer.alphabeta_loop].
    apply justified_bind; [apply justified_alphabeta_plays|]. intros v.
    destruct (fltb beta v); [apply justified_ret|].
    cbv zeta. destruct (fltb best_score v); apply IH.
Qed.

(** A call that starts with the deadline check raises at that check, after
    exactly one reading, exactly when the reading is below the threshold. *)
Lemma entry_check_iff {A : Type} (rest : M A) t :
  justified rest ->
  (check_deadline self time_left ;; rest) t = SearchTimeout (S t) <->
  below_threshold self time_left t.
Proof.
  intros Hrest. unfold bind. split.
  - intros H. destruct (below_threshold_dec self time_left t) as [Hb|Hb];
      [exact Hb|].
    rewrite (check_deadline_pass _ _ _ Hb) in H.
    specialize (Hrest (S t)). rewrite H in Hrest.
    destruct Hrest as (n & Hn & Hle & _). lia.
  - intros Hb. rewrite (check_deadline_fire _ _ _ Hb). reflexivity.
Qed.

End Timeouts.

(** Each of the six recursive entry points ends in [SearchTimeout] after
    exactly one reading of the clock if and only if that reading is below
    the threshold. *)
Lemma timeout_after_one_reading_iff_low
    (self : IsolationPlayer) (time_left : nat -> Q) (game : Board)
    (depth : Z) (alpha beta : pyfloat) (t : nat) :
  (MinimaxPlayer.minimax self time_left game depth t = SearchTimeout (S t)
   <-> below_threshold self time_left t) /\
  (MinimaxPlayer.min_play self time_left game depth t = SearchTimeout (S t)
   <-> below_threshold self time_left t) /\
  (MinimaxPlayer.max_play self time_left game depth t = SearchTimeout (S t)
   <-> below_threshold self time_left t) /\
  (AlphaBetaPlayer.alphabeta self time_left game depth alpha beta t
   = SearchTimeout (S t)
   <-> below_threshold self time_left t) /\
  (AlphaBetaPlayer.ab_min_play self time_left game depth alpha beta t
   = SearchTimeout (S t)
   <-> below_threshold self time_left t) /\
  (AlphaBetaPlayer.ab_max_play self time_left game depth alpha beta t
   = SearchTimeout (S t)
   <-> below_threshold self time_left t).
Proof.
  assert (Hleaf : forall s : pyfloat,
             timeouts_justified self time_left (ret s))
    by (intros s; apply justified_ret).
  assert (Hmm : Forall (fun mc : Move * Board => forall d,
             timeouts_justified self time_left
               (MinimaxPlayer.min_play self time_left (snd mc) d) /\
             timeouts_justified self time_left
               (MinimaxPlayer.max_play self time_left (snd mc) d))
             (successors game))
    by (apply Forall_forall; intros mc _ d; apply justified_minimax_plays).
  assert (Hab : Forall (fun mc : Move * Board => forall d a b,
             timeouts_justified self time_left
               (AlphaBetaPlayer.ab_min_play self time_left (snd mc) d a b) /\
             timeouts_justified self time_left
               (AlphaBetaPlayer.ab_max_play self time_left (snd mc) d a b))
             (successors game))
    by (apply Forall_forall; intros mc _ d a b;
        apply justified_alphabeta_plays).
  rewrite min_play_eq, max_play_eq, ab_min_play_eq, ab_max_play_eq.
  unfold MinimaxPlayer.minimax, AlphaBetaPlayer.alphabeta.
  split; [|split; [|split; [|split; [|split]]]];
    apply entry_check_iff; cbv zeta.
  - destruct (successors game) as [|[first s] rest];
      [apply justified_ret|apply justified_minimax_loop].
  - destruct ((depth =? 0) || is_empty (successors game)); [apply Hleaf|].
    apply justified_min_play_loop.
    eapply Forall_impl; [|exact Hmm]. intros mc H. apply H.
  - destruct ((depth =? 0) || is_empty (successors game)); [apply Hleaf|].
    apply justified_max_play_loop.
    eapply Forall_impl; [|exact Hmm]. intros mc H. apply H.
  - destruct (successors game) as [|[first s] rest];
      [apply justified_ret|apply justified_alphabeta_loop].
  - destruct ((depth =? 0) || is_empty (successors game)); [apply Hleaf|].
    apply justified_ab_min_play_loop.
    eapply Forall_impl; [|exact Hab]. intros mc H a b. apply H.
  - destruct ((depth =? 0) || is_empty (successors game)); [apply Hleaf|].
    apply justified_ab_max_play_loop.
    eapply Forall_impl; [|exact Hab]. intros mc H a b. apply H.
Qed.

(** ** The short circuit at the root of alphabeta *)

Lemma alphabeta_loop_short_circuit self time_left depth beta
    move future_state post score t2 pre :
  forall alpha best_score best_move t alpha1 t1,
    below_beta self time_left depth beta pre (alpha, t) (alpha1, t1) ->
    AlphaBetaPlayer.ab_min_play self time_left future_state (depth - 1)
      alpha1 beta t1 = Done score t2 ->
    flt beta score ->
    AlphaBetaPlayer.alphabeta_loop self time_left depth beta
      (pre ++ (move, future_state) :: post) alpha best_score best_move t
    = Done move t2.
Proof.
  induction pre as [|[m0 s0] pre IH];
    intros alpha best_score best_move t alpha1 t1 Hpre Hscore Hgt.
  - inversion Hpre; subst.
    cbn [app AlphaBetaPlayer.alphabeta_loop]. unfold bind.
    rewrite Hscore. unfold flt in Hgt. rewrite Hgt. reflexivity.
  - inversion Hpre as [|? ? ? ? ? sc tm ? Hsc Hle Hrest]; subst.
    cbn [app AlphaBetaPlayer.alphabeta_loop]. unfold bind.
    rewrite Hsc. unfold fle in Hle. rewrite Hle. cbv zeta.
    destruct (fltb best_score sc); eapply IH; eassumption.
Qed.

(** C8: the root loop of [alphabeta] scores the children in enumeration
    order with the caller's [beta]; when the children before
    [future_state] all scored at most [beta] and [future_state] scores
    above it, [alphabeta] returns [move], the move leading to
    [future_state], with the clock as that child's search left it: the
    moves after it are not searched. *)
Theorem alphabeta_root_returns_first_above_beta
    (self : IsolationPlayer) (time_left : nat -> Q) (game : Board)
    (depth : Z) (alpha beta : pyfloat) (t : nat)
    (pre post : list (Move * Board)) (move : Move) (future_state : Board)
    (alpha1 score : pyfloat) (t1 t2 : nat) :
  successors game = pre ++ (move, future_state) :: post ->
  ~ below_threshold self time_left t ->
  below_beta self time_left depth beta pre (alpha, S t) (alpha1, t1) ->
  AlphaBetaPlayer.ab_min_play self time_left future_state (depth - 1)
    alpha1 beta t1 = Done score t2 ->
  flt beta score ->
  AlphaBetaPlayer.alphabeta self time_left game depth alpha beta t
  = Done move t2.
Proof.
  intros Hsucc Hok Hpre Hscore Hgt.
  unfold AlphaBetaPlayer.alphabeta, bind.
  rewrite (check_deadline_pass _ _ _ Hok). cbv zeta.
  destruct (successors game) as [|[first s] rest] eqn:E.
  - destruct pre; discriminate Hsucc.
  - rewrite Hsucc.
    eapply alphabeta_loop_short_circuit; eassumption.
Qed.

Lemma alphabeta_root_returns_first_above_beta_witness :
  AlphaBetaPlayer.alphabeta me plenty detour 1 NInf (Fin (1 # 2)) 0%nat
  = Done (0, 0) 3%nat.
Proof.
  apply (alphabeta_root_returns_first_above_beta me plenty detour 1
           NInf (Fin (1 # 2)) 0%nat
           [((0, 1), safe)] [((1, 2), safe)] (0, 0) trap
           (Fin 0) (Fin 1) 2%nat 3%nat).
  - reflexivity.
  - apply plenty_never_expires.
  - eapply below_beta_cons.
    + vm_compute. reflexivity.
    + vm_compute. reflexivity.
    + apply below_beta_nil.
  - vm_compute. reflexivity.
  - vm_compute. reflexivity.
Defined.

(** ** Minimax one ply deep, and at depth 0 *)

Section OnePly.
Variable self : IsolationPlayer.
Variable time_left : nat -> Q.
Hypothesis Hclock : never_expires self time_left.

Let h (s : Board) : pyfloat := score self s (ident self).

Lemma min_play_depth_0 future_state t :
  MinimaxPlayer.min_play self time_left future_state 0 t
  = Done (h future_state) (S t).
Proof.
  rewrite min_play_eq. unfold bind.
  rewrite (check_deadline_pass _ _ _ (Hclock t)). reflexivity.
Qed.

(** The root loop at depth 1: either no score beat [best_score] and
    [best_move] stands, or the move returned is the first of the best
    among [moves], and beats [best_score]. *)
Lemma minimax_loop_depth_1 moves :
  forall best_score best_move t,
  exists m t',
    MinimaxPlayer.minimax_loop self time_left 1 moves best_score best_move t
    = Done m t' /\
    ((m = best_move /\
      forall j m' c', nth_error moves j = Some (m', c') ->
                      fle (h c') best_score) \/
     exists i c,
       nth_error moves i = Some (m, c) /\
       flt best_score (h c) /\
       (forall j m' c', nth_error moves j = Some (m', c') ->
                        fle (h c') (h c)) /\
       (forall j m' c', (j < i)%nat -> nth_error moves j = Some (m', c') ->
                        flt (h c') (h c))).
Proof.
  induction moves as [|[move s] rest IH]; intros best_score best_move t.
  - exists best_move, t. split; [reflexivity|]. left. split; [reflexivity|].
    intros [|j] m' c' H; discriminate H.
  - cbn [MinimaxPlayer.minimax_loop]. unfold bind.
    replace (1 - 1) with 0 by lia. rewrite min_play_depth_0.
    destruct (fltb best_score (h s)) eqn:E.
    + destruct (IH (h s) move (S t)) as (m & t' & Hrun & Hcase).
      exists m, t'. split; [exact Hrun|]. right.
      destruct Hcase as [[-> Hall]|(i & c & Hnth & Hgt & Hall & Hfirst)].
      * exists 0%nat, s. split; [reflexivity|]. split; [exact E|]. split.
        -- intros [|j] m' c' H; simpl in H.
           ++ inversion H; subst. apply fle_refl.
           ++ eapply Hall; eassumption.
        -- intros j m' c' Hj. lia.
      * exists (S i), c. split; [exact Hnth|]. split.
        -- eapply flt_trans; eassumption.
        -- split.
           ++ intros [|j] m' c' H; simpl in H.
              ** inversion H; subst. apply flt_fle. exact Hgt.
              ** eapply Hall; eassumption.
           ++ intros [|j] m' c' Hj H; simpl in H.
              ** inversion H; subst. exact Hgt.
              ** eapply Hfirst; [|eassumption]. lia.
    + destruct (IH best_score best_move (S t)) as (m & t' & Hrun & Hcase).
      exists m, t'. split; [exact Hrun|].
      destruct Hcase as [[-> Hall]|(i & c & Hnth & Hgt & Hall & Hfirst)].
      * left. split; [reflexivity|].
        intros [|j] m' c' H; simpl in H.
        -- inversion H; subst. exact E.
        -- eapply Hall; eassumption.
      * right. exists (S i), c. split; [exact Hnth|].
        split; [exact Hgt|]. split.
        -- intros [|j] m' c' H; simpl in H.
           ++ inversion H; subst. apply flt_fle.
              eapply fle_flt_trans; [exact E|exact Hgt].
           ++ eapply Hall; eassumption.
        -- intros [|j] m' c' Hj H; simpl in H.
           ++ inversion H; subst. eapply fle_flt_trans; [exact E|exact Hgt].
           ++ eapply Hfirst; [|eassumption]. lia.
Qed.

End OnePly.

(** C5, as the code has it: with depth 1 (the children are scored at
    depth 0, by the heuristic alone) and a clock that never runs low,
    [minimax] returns the first legal move, in enumeration order, whose
    successor state has the highest value of [self.score]. *)
Theorem minimax_depth_1_first_best
    (self : IsolationPlayer) (time_left : nat -> Q) (game : Board)
    (t : nat) :
  never_expires self time_left ->
  get_legal_moves game <> [] ->
  exists m t',
    MinimaxPlayer.minimax self time_left game 1 t = Done m t' /\
    first_best (fun s => score self s (ident self)) (successors game) m.
Proof.
  intros Hclock Hne.
  unfold MinimaxPlayer.minimax, bind.
  rewrite (check_deadline_pass _ _ _ (Hclock t)). cbv zeta.
  unfold get_legal_moves in Hne.
  destruct (successors game) as [|[first s0] rest] eqn:E;
    [contradiction Hne; reflexivity|].
  destruct (minimax_loop_depth_1 self time_left Hclock
              ((first, s0) :: rest) NInf first (S t))
    as (m & t' & Hrun & Hcase).
  exists m, t'. split; [exact Hrun|].
  destruct Hcase as [[-> Hall]|(i & c & Hnth & Hgt & Hall & Hfirst)].
  - exists 0%nat, s0. split; [reflexivity|]. split.
    + intros j m' c' H. eapply fle_trans; [eapply Hall; exact H|].
      apply fle_NInf.
    + intros j m' c' Hj. lia.
  - exists i, c. auto.
Qed.

Lemma minimax_depth_1_first_best_witness :
  exists m t',
    MinimaxPlayer.minimax me plenty crossroads 1 0%nat = Done m t' /\
    first_best (fun s => score me s (ident me)) (successors crossroads) m.
Proof.
  apply (minimax_depth_1_first_best me plenty crossroads 0%nat).
  - apply plenty_never_expires.
  - discriminate.
Defined.

(** C5, as stated, fails: at depth 0 the children are searched with depth
    -1, which never meets the test [depth == 0], so the search runs to
    the end of the game.  On [crossroads] the heuristic prefers [(0, 0)]
    (1 against 0) and [minimax] with depth 0 returns [(0, 1)], because
    [(0, 0)] loses two plies later. *)
Lemma minimax_depth_0_not_first_best :
  never_expires me plenty /\
  get_legal_moves crossroads = [(0, 0); (0, 1)] /\
  MinimaxPlayer.minimax me plenty crossroads 0 0%nat = Done (0, 1) 8%nat /\
  first_best (fun s => score me s (ident me)) (successors crossroads) (0, 0) /\
  ~ first_best (fun s => score me s (ident me)) (successors crossroads) (0, 1).
Proof.
  split; [apply plenty_never_expires|].
  split; [reflexivity|]. split; [reflexivity|]. split.
  - exists 0%nat, trap. split; [reflexivity|]. split.
    + intros [|[|[|j]]] m' c' H; simpl in H; inversion H; subst;
        reflexivity.
    + intros j m' c' Hj. lia.
  - intros (i & c & Hnth & Hall & _).
    destruct i as [|[|[|i]]]; simpl in Hnth; inversion Hnth; subst.
    specialize (Hall 0%nat (0, 0) trap eq_refl).
    vm_compute in Hall. discriminate Hall.
Qed.

(** ** Alpha-beta against minimax *)

Section Pruning.
Variable self : IsolationPlayer.
Variable time_left : nat -> Q.
Hypothesis Hclock : never_expires self time_left.

Lemma returns_ret {A : Type} (a : A) : returns (ret a) a.
Proof. intros t. exists t. reflexivity. Qed.

Lemma returns_bind {A B : Type} (m : M A) (k : A -> M B) a b :
  returns m a -> returns (k a) b -> returns (bind m k) b.
Proof.
  intros Hm Hk t. unfold bind.
  destruct (Hm t) as (t1 & ->). apply Hk.
Qed.

Lemma returns_check : returns (check_deadline self time_left) tt.
Proof.
  intros t. exists (S t). apply check_deadline_pass. apply Hclock.
Qed.

Lemma returns_unique {A : Type} (m : M A) a b :
  returns m a -> returns m b -> a = b.
Proof.
  intros Ha Hb. destruct (Ha 0%nat) as (t1 & H1).
  destruct (Hb 0%nat) as (t2 & H2). congruence.
Qed.

(** The minimax loops return, and the result is bounded by the
    accumulator they start from. *)
Lemma min_play_loop_returns child moves :
  Forall (fun mc => exists v, returns (child (snd mc)) v) moves ->
  forall L, exists V,
      returns (MinimaxPlayer.min_play_loop child moves L) V /\ fle V L.
Proof.
  induction 1 as [|[move s] rest (v & Hv) _ IH]; intros L.
  - exists L. split; [apply returns_ret|apply fle_refl].
  - destruct (IH (pymin L v)) as (V & HV & Hle).
    exists V. split.
    + cbn [MinimaxPlayer.min_play_loop].
      eapply returns_bind; [exact Hv|exact HV].
    + apply (min_acc _ _ _ Hle).
Qed.

Lemma max_play_loop_returns child moves :
  Forall (fun mc => exists v, returns (child (snd mc)) v) moves ->
  forall H, exists V,
      returns (MinimaxPlayer.max_play_loop child moves H) V /\ fle H V.
Proof.
  induction 1 as [|[move s] rest (v & Hv) _ IH]; intros H.
  - exists H. split; [apply returns_ret|apply fle_refl].
  - destruct (IH (pymax H v)) as (V & HV & Hle).
    exists V. split.
    + cbn [MinimaxPlayer.max_play_loop].
      eapply returns_bind; [exact Hv|exact HV].
    + apply (max_acc _ _ _ Hle).
Qed.

Lemma ab_min_play_loop_spec child_mm child_ab alpha moves :
  Forall (child_ok child_mm child_ab) moves ->
  forall L lowest beta,
  exists V R,
    returns (MinimaxPlayer.min_play_loop child_mm moves L) V /\
    returns (AlphaBetaPlayer.ab_min_play_loop child_ab alpha moves
               lowest beta) R /\
    (flt alpha beta -> fle beta L -> fle beta lowest ->
     (fle V alpha -> fle R alpha) /\
     (flt alpha V -> flt V beta -> feq R V) /\
     (fle beta V -> feq R beta)).
Proof.
  intros Hall.
  assert (Htotal : Forall (fun mc => exists v, returns (child_mm (snd mc)) v)
                     moves).
  { eapply Forall_impl; [|exact Hall]. intros mc (v & Hv & _). eauto. }
  revert Htotal.
  induction Hall as [|[move s] rest (v & Hv & Hr) _ IH];
    intros Htotal L lowest beta.
  - exists L, beta. split; [apply returns_ret|]. split; [apply returns_ret|].
    intros Hab HL _. clear - Hab HL. forder.
  - inversion Htotal as [|? ? _ Hrest]; subst.
    destruct (Hr alpha beta) as (r & Hrr & Hw).
    destruct (min_play_loop_returns child_mm rest Hrest (pymin L v))
      as (V & HV & HVL).
    destruct (IH Hrest (pymin L v) (pymin lowest r)
                (pymin beta (pymin lowest r)))
      as (V' & R & HV' & HR & Hspec).
    assert (V' = V) by (eapply returns_unique; eassumption). subst V'.
    exists V.
    exists (if fleb (pymin beta (pymin lowest r)) alpha
            then pymin beta (pymin lowest r) else R).
    split; [|split].
    + cbn [MinimaxPlayer.min_play_loop].
      eapply returns_bind; [exact Hv|exact HV].
    + cbn [AlphaBetaPlayer.ab_min_play_loop].
      eapply returns_bind; [exact Hrr|]. cbv zeta.
      destruct (fleb (pymin beta (pymin lowest r)) alpha);
        [apply returns_ret|exact HR].
    + intros Hab HL Hlow. specialize (Hw Hab).
      destruct (min_acc _ _ _ HVL) as (_ & HVv).
      destruct (min_beta_step beta lowest r Hlow)
        as (Hb1 & Hb2 & Hb3 & Hb4).
      set (beta' := pymin beta (pymin lowest r)) in *.
      destruct (fleb beta' alpha) eqn:Hbrk.
      * apply fleb_true_iff in Hbrk.
        assert (Hv_low : fle v alpha)
          by (exact (min_break alpha beta beta' v r Hab Hw Hb4 Hbrk)).
        assert (HV_low : fle V alpha)
          by (exact (fle_trans _ _ _ HVv Hv_low)).
        clear - Hbrk HV_low Hab. split; [|split]; intros.
        -- exact Hbrk.
        -- exfalso. forder.
        -- exfalso. forder.
      * apply fleb_false_iff in Hbrk.
        destruct (min_continue alpha beta beta' v r Hab Hw Hb1 Hb2 Hbrk)
          as (Hin & Hout & Hb'v).
        assert (Hb'L : fle beta' (pymin L v)).
        { assert (fle beta' L) by (exact (fle_trans _ _ _ Hb1 HL)).
          clear - H Hb'v. forder. }
        destruct (Hspec Hbrk Hb'L Hb3) as (S1 & S2 & S3).
        split; [exact S1|]. split.
        -- intros HaV HVb.
           destruct (flt_or_fle V beta') as [Hlt|Hge].
           { apply S2; assumption. }
           eapply feq_trans; [apply S3; exact Hge|].
           split; [exact Hge|].
           exact (min_inside beta beta' v r V Hb4 Hin Hout HVv HVb Hge).
        -- intros HbV.
           assert (Hbb' : fle beta beta')
             by (exact (min_above beta beta' v r V Hb4 Hout HVv HbV)).
           eapply feq_trans;
             [apply S3; exact (fle_trans _ _ _ Hb1 HbV)|].
           split; assumption.
Qed.

Lemma ab_max_play_loop_spec child_mm child_ab beta moves :
  Forall (child_ok child_mm child_ab) moves ->
  forall H highest alpha,
  exists V R,
    returns (MinimaxPlayer.max_play_loop child_mm moves H) V /\
    returns (AlphaBetaPlayer.ab_max_play_loop child_ab beta moves
               highest alpha) R /\
    (flt alpha beta -> fle H alpha -> fle highest alpha ->
     (fle beta V -> fle beta R) /\
     (flt alpha V -> flt V beta -> feq R V) /\
     (fle V alpha -> feq R alpha)).
Proof.
  intros Hall.
  assert (Htotal : Forall (fun mc => exists v, returns (child_mm (snd mc)) v)
                     moves).
  { eapply Forall_impl; [|exact Hall]. intros mc (v & Hv & _). eauto. }
  revert Htotal.
  induction Hall as [|[move s] rest (v & Hv & Hr) _ IH];
    intros Htotal H highest alpha.
  - exists H, alpha. split; [apply returns_ret|]. split; [apply returns_ret|].
    intros Hab HH _. clear - Hab HH. forder.
  - inversion Htotal as [|? ? _ Hrest]; subst.
    destruct (Hr alpha beta) as (r & Hrr & Hw).
    destruct (max_play_loop_returns child_mm rest Hrest (pymax H v))
      as (V & HV & HVH).
    destruct (IH Hrest (pymax H v) (pymax highest r)
                (pymax alpha (pymax highest r)))
      as (V' & R & HV' & HR & Hspec).
    assert (V' = V) by (eapply returns_unique; eassumption). subst V'.
    exists V.
    exists (if fleb beta (pymax alpha (pymax highest r))
            then pymax alpha (pymax highest r) else R).
    split; [|split].
    + cbn [MinimaxPlayer.max_play_loop].
      eapply returns_bind; [exact Hv|exact HV].
    + cbn [AlphaBetaPlayer.ab_max_play_loop].
      eapply returns_bind; [exact Hrr|]. cbv zeta.
      destruct (fleb beta (pymax alpha (pymax highest r)));
        [apply returns_ret|exact HR].
    + intros Hab HH Hhigh. specialize (Hw Hab).
      destruct (max_acc _ _ _ HVH) as (_ & HvV).
      destruct (max_alpha_step alpha highest r Hhigh)
        as (Ha1 & Ha2 & Ha3 & Ha4).
      set (alpha' := pymax alpha (pymax highest r)) in *.
      destruct (fleb beta alpha') eqn:Hbrk.
      * apply fleb_true_iff in Hbrk.
        assert (Hv_high : fle beta v)
          by (exact (max_break alpha beta alpha' v r Hab Hw Ha4 Hbrk)).
        assert (HV_high : fle beta V)
          by (exact (fle_trans _ _ _ Hv_high HvV)).
        clear - Hbrk HV_high Hab. split; [|split]; intros.
        -- exact Hbrk.
        -- exfalso. forder.
        -- exfalso. forder.
      * apply fleb_false_iff in Hbrk.
        destruct (max_continue alpha beta alpha' v r Hab Hw Ha1 Ha2 Hbrk)
          as (Hin & Hout & Hva').
        assert (HH' : fle (pymax H v) alpha').
        { assert (fle H alpha') by (exact (fle_trans _ _ _ HH Ha1)).
          clear - H0 Hva'. forder. }
        destruct (Hspec Hbrk HH' Ha3) as (S1 & S2 & S3).
        split; [exact S1|]. split.
        -- intros HaV HVb.
           destruct (flt_or_fle alpha' V) as [Hlt|Hge].
           { apply S2; assumption. }
           eapply feq_trans; [apply S3; exact Hge|].
           split; [|exact Hge].
           exact (max_inside alpha alpha' v r V Ha4 Hin Hout HvV HaV Hge).
        -- intros HVa.
           assert (Haa' : fle alpha' alpha)
             by (exact (max_below alpha alpha' v r V Ha4 Hout HvV HVa)).
           eapply feq_trans;
             [apply S3; exact (fle_trans _ _ _ HVa Ha1)|].
           split; assumption.
Qed.

Lemma within_window_same alpha beta v : within_window alpha beta v v.
Proof. forder. Qed.

(** Every node, as a minimising and as a maximising one, at every depth. *)
Lemma plays_agree future_state :
  forall depth,
    node_ok (MinimaxPlayer.min_play self time_left future_state depth)
            (AlphaBetaPlayer.ab_min_play self time_left future_state depth)
    /\
    node_ok (MinimaxPlayer.max_play self time_left future_state depth)
            (AlphaBetaPlayer.ab_max_play self time_left future_state depth).
Proof.
  induction future_state as [b IH] using Board_tree_ind. intros depth.
  unfold node_ok. rewrite min_play_eq, max_play_eq.
  destruct ((depth =? 0) || is_empty (successors b)) eqn:Eleaf.
  - split; exists (score self b (ident self));
      (split;
       [eapply returns_bind; [apply returns_check|apply returns_ret]|]);
      intros a b0; exists (score self b (ident self));
      (split; [|intros _; apply within_window_same]).
    + rewrite ab_min_play_eq, Eleaf.
      eapply returns_bind; [apply returns_check|apply returns_ret].
    + rewrite ab_max_play_eq, Eleaf.
      eapply returns_bind; [apply returns_check|apply returns_ret].
  - split.
    + assert (Hkids : Forall
                (child_ok
                   (fun s => MinimaxPlayer.max_play self time_left s (depth - 1))
                   (fun s a b0 => AlphaBetaPlayer.ab_max_play self time_left s
                                    (depth - 1) a b0))
                (successors b)).
      { eapply Forall_impl; [|exact IH]. intros mc H. apply (H (depth - 1)). }
      destruct (ab_min_play_loop_spec _ _ NInf _ Hkids PInf PInf PInf)
        as (v & _ & Hv & _).
      exists v. split.
      * eapply returns_bind; [apply returns_check|exact Hv].
      * intros a b0.
        destruct (ab_min_play_loop_spec _ _ a _ Hkids PInf PInf b0)
          as (v' & r & Hv' & Hr & Hspec).
        assert (v' = v) by (eapply returns_unique; eassumption). subst v'.
        exists r. split.
        -- rewrite ab_min_play_eq, Eleaf.
           eapply returns_bind; [apply returns_check|exact Hr].
        -- intros Hab.
           destruct (Hspec Hab (fle_PInf _) (fle_PInf _)) as (S1 & S2 & S3).
           split; [exact S1|]. split; [exact S2|].
           intros H. apply S3 in H. apply H.
    + assert (Hkids : Forall
                (child_ok
                   (fun s => MinimaxPlayer.min_play self time_left s (depth - 1))
                   (fun s a b0 => AlphaBetaPlayer.ab_min_play self time_left s
                                    (depth - 1) a b0))
                (successors b)).
      { eapply Forall_impl; [|exact IH]. intros mc H. apply (H (depth - 1)). }
      destruct (ab_max_play_loop_spec _ _ PInf _ Hkids NInf NInf NInf)
        as (v & _ & Hv & _).
      exists v. split.
      * eapply returns_bind; [apply returns_check|exact Hv].
      * intros a b0.
        destruct (ab_max_play_loop_spec _ _ b0 _ Hkids NInf NInf a)
          as (v' & r & Hv' & Hr & Hspec).
        assert (v' = v) by (eapply returns_unique; eassumption). subst v'.
        exists r. split.
        -- rewrite ab_max_play_eq, Eleaf.
           eapply returns_bind; [apply returns_check|exact Hr].
        -- intros Hab.
           destruct (Hspec Hab (fle_NInf _) (fle_NInf _)) as (S1 & S2 & S3).
           split; [|split; [exact S2|exact S1]].
           intros H. apply S3 in H. apply H.
Qed.

(** The two root loops, run side by side with the unbounded [beta]:
    [alpha] and both best scores stay equal, and so does the best move. *)
Lemma root_loops_agree depth moves :
  forall alpha best_ab best_mm best_move,
    feq alpha best_ab -> feq best_ab best_mm ->
    exists m,
      returns (MinimaxPlayer.minimax_loop self time_left depth moves
                 best_mm best_move) m /\
      returns (AlphaBetaPlayer.alphabeta_loop self time_left depth PInf
                 moves alpha best_ab best_move) m.
Proof.
  induction moves as [|[move s] rest IH];
    intros alpha best_ab best_mm best_move Ha Hb.
  - exists best_move. split; apply returns_ret.
  - destruct (plays_agree s (depth - 1)) as [(v & Hv & Hr) _].
    destruct (Hr alpha PInf) as (r & Hrr & Hw).
    destruct (root_step alpha best_ab best_mm v r Ha Hb Hw)
      as (E1 & E2 & E3).
    destruct (fltb best_ab r) eqn:Eu.
    + destruct (IH r r v move (feq_refl r) (E3 eq_refl)) as (m & Hm & Hab).
      exists m. split.
      * cbn [MinimaxPlayer.minimax_loop].
        eapply returns_bind; [exact Hv|]. rewrite E1. exact Hm.
      * cbn [AlphaBetaPlayer.alphabeta_loop].
        eapply returns_bind; [exact Hrr|].
        cbn [fltb]. cbv zeta. unfold pymax. rewrite E2, Eu. exact Hab.
    + destruct (IH alpha best_ab best_mm best_move Ha Hb) as (m & Hm & Hab).
      exists m. split.
      * cbn [MinimaxPlayer.minimax_loop].
        eapply returns_bind; [exact Hv|]. rewrite E1. exact Hm.
      * cbn [AlphaBetaPlayer.alphabeta_loop].
        eapply returns_bind; [exact Hrr|].
        cbn [fltb]. cbv zeta. unfold pymax. rewrite E2, Eu. exact Hab.
Qed.

End Pruning.

(** C1: under a clock that never reads below the threshold, [alphabeta]
    called with the window [(-inf, +inf)] returns, and returns the move
    [minimax] returns on the same state at the same depth; this holds at
    every depth, in particular at every depth [d >= 0]. *)
Theorem alphabeta_returns_minimax_move
    (self : IsolationPlayer) (time_left : nat -> Q) (game : Board)
    (depth : Z) (t : nat) :
  never_expires self time_left ->
  exists m t1 t2,
    MinimaxPlayer.minimax self time_left game depth t = Done m t1 /\
    AlphaBetaPlayer.alphabeta self time_left game depth NInf PInf t
    = Done m t2.
Proof.
  intros Hclock.
  unfold MinimaxPlayer.minimax, AlphaBetaPlayer.alphabeta, bind.
  rewrite (check_deadline_pass _ _ _ (Hclock t)). cbv zeta.
  destruct (successors game) as [|[first s] rest].
  - exists no_move, (S t), (S t). split; reflexivity.
  - destruct (root_loops_agree self time_left Hclock depth
                ((first, s) :: rest) NInf NInf NInf first
                (feq_refl _) (feq_refl _)) as (m & Hm & Hab).
    destruct (Hm (S t)) as (t1 & H1). destruct (Hab (S t)) as (t2 & H2).
    exists m, t1, t2. split; assumption.
Qed.

Lemma alphabeta_returns_minimax_move_witness :
  exists m t1 t2,
    MinimaxPlayer.minimax me plenty crossroads 0 0%nat = Done m t1 /\
    AlphaBetaPlayer.alphabeta me plenty crossroads 0 NInf PInf 0%nat
    = Done m t2.
Proof.
  apply (alphabeta_returns_minimax_move me plenty crossroads 0 0%nat).
  apply plenty_never_expires.
Defined.

(** * More of the agent *)

(** ** The heuristics on undecided states *)

Lemma len_nonneg {A : Type} (l : list A) : 0 <= len l.
Proof. unfold len. lia. Qed.

Lemma fle_Fin_inject (a b : Z) : a <= b -> fle (Fin (inject_Z a)) (Fin (inject_Z b)).
Proof.
  intros H. unfold fle. simpl. apply Qltb_false_iff.
  rewrite <- Zle_Qle. exact H.
Qed.

(** X1: [opp_diff] is zero-sum on an undecided state: when neither
    player has won or lost and [get_opponent] sends the opponent back to
    the player, the value for the opponent is the opposite of the value
    for the player. *)
Theorem opp_diff_zero_sum (game : Board) (player : Player) :
  get_opponent game (get_opponent game player) = player ->
  is_winner game player = false ->
  is_loser game player = false ->
  is_winner game (get_opponent game player) = false ->
  is_loser game (get_opponent game player) = false ->
  exists z,
    opp_diff game player = Fin (inject_Z z) /\
    opp_diff game (get_opponent game player) = Fin (inject_Z (- z)).
Proof.
  intros Hinv Hw Hl Hw' Hl'. unfold opp_diff.
  rewrite Hw, Hl, Hw', Hl', Hinv.
  eexists. split; [reflexivity|]. do 2 f_equal. lia.
Qed.

Lemma opp_diff_zero_sum_witness :
  exists z,
    opp_diff crossroads Player1 = Fin (inject_Z z) /\
    opp_diff crossroads (get_opponent crossroads Player1)
    = Fin (inject_Z (- z)).
Proof.
  apply (opp_diff_zero_sum crossroads Player1); reflexivity.
Defined.

(** X2: whenever [opp_diff_aggressive] returns a float (the player has
    won, or has not lost), the three mobility heuristics are ordered:
    [opp_diff_aggressive <= opp_diff <= opp_diff_defensive]. *)
Theorem heuristic_variants_ordered (game : Board) (player : Player) :
  is_winner game player = true \/ is_loser game player = false ->
  exists a,
    opp_diff_aggressive game player = PyFloat a /\
    fle a (opp_diff game player) /\
    fle (opp_diff game player) (opp_diff_defensive game player).
Proof.
  unfold opp_diff_aggressive, opp_diff, opp_diff_defensive.
  destruct (is_winner game player).
  - intros _. exists PInf. repeat split; reflexivity.
  - intros [H|H]; [discriminate|]. rewrite H. cbv zeta.
    eexists. split; [reflexivity|].
    pose proof (len_nonneg (get_legal_moves_of game player)).
    pose proof (len_nonneg
                  (get_legal_moves_of game (get_opponent game player))).
    split; apply fle_Fin_inject; lia.
Qed.

Lemma heuristic_variants_ordered_witness :
  exists a,
    opp_diff_aggressive crossroads Player1 = PyFloat a /\
    fle a (opp_diff crossroads Player1) /\
    fle (opp_diff crossroads Player1) (opp_diff_defensive crossroads Player1).
Proof.
  apply (heuristic_variants_ordered crossroads Player1).
  right. reflexivity.
Defined.

(** ** What holds of every computation built from the deadline check *)

Section Closure.
Variable self : IsolationPlayer.
Variable time_left : nat -> Q.
Variable P : forall A : Type, M A -> Prop.
Hypothesis P_ret : forall (A : Type) (a : A), P A (ret a).
Hypothesis P_check : P unit (check_deadline self time_left).
Hypothesis P_bind :
  forall (A B : Type) (m : M A) (k : A -> M B),
    P A m -> (forall a, P B (k a)) -> P B (bind m k).

Lemma closure_min_play_loop child moves :
  Forall (fun mc => P _ (child (snd mc))) moves ->
  forall lowest_score,
    P _ (MinimaxPlayer.min_play_loop child moves lowest_score).
Proof.
  induction 1 as [|[move s] rest Hs _ IH]; intros lowest_score.
  - apply P_ret.
  - cbn [MinimaxPlayer.min_play_loop].
    apply P_bind; [exact Hs|]. intros v. apply IH.
Qed.

Lemma closure_max_play_loop child moves :
  Forall (fun mc => P _ (child (snd mc))) moves ->
  forall highest_score,
    P _ (MinimaxPlayer.max_play_loop child moves highest_score).
Proof.
  induction 1 as [|[move s] rest Hs _ IH]; intros highest_score.
  - apply P_ret.
  - cbn [MinimaxPlayer.max_play_loop].
    apply P_bind; [exact Hs|]. intros v. apply IH.
Qed.

Lemma closure_ab_min_play_loop child alpha moves :
  Forall (fun mc => forall a b, P _ (child (snd mc) a b)) moves ->
  forall lowest_score beta,
    P _ (AlphaBetaPlayer.ab_min_play_loop child alpha moves lowest_score beta).
Proof.
  induction 1 as [|[move s] rest Hs _ IH]; intros lowest_score beta.
  - apply P_ret.
  - cbn [AlphaBetaPlayer.ab_min_play_loop].
    apply P_bind; [apply Hs|]. intros v. cbv zeta.
    destruct (fleb _ alpha); [apply P_ret|apply IH].
Qed.

Lemma closure_ab_max_play_loop child beta moves :
  Forall (fun mc => forall a b, P _ (child (snd mc) a b)) moves ->
  forall highest_score alpha,
    P _ (AlphaBetaPlayer.ab_max_play_loop child beta moves highest_score alpha).
Proof.
  induction 1 as [|[move s] rest Hs _ IH]; intros highest_score alpha.
  - apply P_ret.
  - cbn [AlphaBetaPlayer.ab_max_play_loop].
    apply P_bind; [apply Hs|]. intros v. cbv zeta.
    destruct (fleb beta _); [apply P_ret|apply IH].
Qed.

Lemma closure_minimax_plays future_state :
  forall depth,
    P _ (MinimaxPlayer.min_play self time_left future_state depth) /\
    P _ (MinimaxPlayer.max_play self time_left future_state depth).
Proof.
  induction future_state as [b IH] using Board_tree_ind. intros depth.
  rewrite min_play_eq, max_play_eq.
  split; (apply P_bind; [apply P_check|]); intros _;
    (destruct ((depth =? 0) || is_empty (successors b)); [apply P_ret|]).
  - apply closure_min_play_loop.
    eapply Forall_impl; [|exact IH]. intros mc H. apply H.
  - apply closure_max_play_loop.
    eapply Forall_impl; [|exact IH]. intros mc H. apply H.
Qed.

Lemma closure_alphabeta_plays future_state :
  forall depth alpha beta,
    P _ (AlphaBetaPlayer.ab_min_play self time_left future_state depth
           alpha beta) /\
    P _ (AlphaBetaPlayer.ab_max_play self time_left future_state depth
           alpha beta).
Proof.
  induction future_state as [b IH] using Board_tree_ind.
  intros depth alpha beta.
  rewrite ab_min_play_eq, ab_max_play_eq.
  split; (apply P_bind; [apply P_check|]); intros _;
    (destruct ((depth =? 0) || is_empty (successors b)); [apply P_ret|]).
  - apply closure_ab_min_play_loop.
    eapply Forall_impl; [|exact IH]. intros mc H a b0. apply H.
  - apply closure_ab_max_play_loop.
    eapply Forall_impl; [|exact IH]. intros mc H a b0. apply H.
Qed.

Lemma closure_minimax_loop depth moves :
  forall best_score best_move,
    P _ (MinimaxPlayer.minimax_loop self time_left depth moves
           best_score best_move).
Proof.
  induction moves as [|[move s] rest IH]; intros best_score best_move.
  - apply P_ret.
  - cbn [MinimaxPlayer.minimax_loop].
    apply P_bind; [apply closure_minimax_plays|]. intros v.
    destruct (fltb best_score v); apply IH.
Qed.

Lemma closure_alphabeta_loop depth beta moves :
  forall alpha best_score best_move,
    P _ (AlphaBetaPlayer.alphabeta_loop self time_left depth beta
           moves alpha best_score best_move).
Proof.
  induction moves as [|[move s] rest IH]; intros alpha best_score best_move.
  - apply P_ret.
  - cbn [AlphaBetaPlayer.alphabeta_loop].
    apply P_bind; [apply closure_alphabeta_plays|]. intros v.
    destruct (fltb beta v); [apply P_ret|].
    cbv zeta. destruct (fltb best_score v); apply IH.
Qed.

Lemma closure_minimax game depth :
  P _ (MinimaxPlayer.minimax self time_left game depth).
Proof.
  unfold MinimaxPlayer.minimax.
  apply P_bind; [apply P_check|]. intros _. cbv zeta.
  destruct (successors game) as [|[first s] rest];
    [apply P_ret|apply closure_minimax_loop].
Qed.

Lemma closure_alphabeta game depth alpha beta :
  P _ (AlphaBetaPlayer.alphabeta self time_left game depth alpha beta).
Proof.
  unfold AlphaBetaPlayer.alphabeta.
  apply P_bind; [apply P_check|]. intros _. cbv zeta.
  destruct (successors game) as [|[first s] rest];
    [apply P_ret|apply closure_alphabeta_loop].
Qed.

End Closure.

(** ** The search stops at the first low reading *)

Section FirstLow.
Variable self : IsolationPlayer.
Variable time_left : nat -> Q.

Lemma stops_ret (A : Type) (a : A) :
  stops_at_first_low self time_left (ret a).
Proof. intros t. simpl. split; [lia|]. intros i Hi. lia. Qed.

Lemma stops_check :
  stops_at_first_low self time_left (check_deadline self time_left).
Proof.
  intros t. unfold check_deadline.
  destruct (Qltb (time_left t) (TIMER_THRESHOLD self)) eqn:E.
  - exists t. split; [reflexivity|]. split; [lia|]. split.
    + apply Qltb_iff. exact E.
    + intros i Hi. lia.
  - split; [lia|]. intros i Hi. assert (i = t) by lia. subst i.
    intros Hb. apply Qltb_iff in Hb. congruence.
Qed.

Lemma stops_bind (A B : Type) (m : M A) (k : A -> M B) :
  stops_at_first_low self time_left m ->
  (forall a, stops_at_first_low self time_left (k a)) ->
  stops_at_first_low self time_left (bind m k).
Proof.
  intros Hm Hk t. unfold bind. specialize (Hm t).
  destruct (m t) as [a t1|t1].
  - destruct Hm as (Hle & Hno). specialize (Hk a t1).
    destruct (k a t1) as [b t2|t2].
    + destruct Hk as (Hle2 & Hno2). split; [lia|].
      intros i Hi. destruct (Nat.lt_ge_cases i t1);
        [apply Hno|apply Hno2]; lia.
    + destruct Hk as (n & -> & Hle2 & Hlow & Hno2).
      exists n. split; [reflexivity|]. split; [lia|]. split; [exact Hlow|].
      intros i Hi. destruct (Nat.lt_ge_cases i t1);
        [apply Hno|apply Hno2]; lia.
  - exact Hm.
Qed.

End FirstLow.

(** X4: each of the six search functions reads the clock one reading
    after the other and stops at the first reading below the threshold:
    when it returns a value, none of the readings it took was below the
    threshold; when it raises [SearchTimeout], the last reading it took
    is the first one below the threshold since the call started. *)
Theorem search_stops_at_first_low_reading
    (self : IsolationPlayer) (time_left : nat -> Q) (game : Board)
    (depth : Z) (alpha beta : pyfloat) :
  stops_at_first_low self time_left
    (MinimaxPlayer.minimax self time_left game depth) /\
  stops_at_first_low self time_left
    (MinimaxPlayer.min_play self time_left game depth) /\
  stops_at_first_low self time_left
    (MinimaxPlayer.max_play self time_left game depth) /\
  stops_at_first_low self time_left
    (AlphaBetaPlayer.alphabeta self time_left game depth alpha beta) /\
  stops_at_first_low self time_left
    (AlphaBetaPlayer.ab_min_play self time_left game depth alpha beta) /\
  stops_at_first_low self time_left
    (AlphaBetaPlayer.ab_max_play self time_left game depth alpha beta).
Proof.
  pose proof (stops_ret self time_left) as Hret.
  pose proof (stops_check self time_left) as Hcheck.
  pose proof (stops_bind self time_left) as Hbind.
  split; [|split; [|split; [|split; [|split]]]].
  - apply (closure_minimax self time_left _ Hret Hcheck Hbind).
  - apply (closure_minimax_plays self time_left _ Hret Hcheck Hbind).
  - apply (closure_minimax_plays self time_left _ Hret Hcheck Hbind).
  - apply (closure_alphabeta self time_left _ Hret Hcheck Hbind).
  - apply (closure_alphabeta_plays self time_left _ Hret Hcheck Hbind).
  - apply (closure_alphabeta_plays self time_left _ Hret Hcheck Hbind).
Qed.

(** ** The drivers *)

Section Drivers.
Variable self : IsolationPlayer.
Variable time_left : nat -> Q.

Lemma stops_alphabeta game depth alpha beta :
  stops_at_first_low self time_left
    (AlphaBetaPlayer.alphabeta self time_left game depth alpha beta).
Proof.
  apply (closure_alphabeta self time_left
           (@stops_at_first_low self time_left)
           (stops_ret self time_left) (stops_check self time_left)
           (stops_bind self time_left)).
Qed.

(** A round of [alphabeta] that returns has read the clock. *)
Lemma alphabeta_reads_clock game depth alpha beta t m t' :
  AlphaBetaPlayer.alphabeta self time_left game depth alpha beta t
  = Done m t' ->
  (t < t')%nat.
Proof.
  unfold AlphaBetaPlayer.alphabeta. intros H.
  apply bind_Done in H. destruct H as ([] & t1 & Hc & H).
  unfold check_deadline in Hc.
  destruct (Qltb (time_left t) (TIMER_THRESHOLD self)); [discriminate|].
  inversion Hc; subst t1. cbv zeta in H.
  destruct (successors game) as [|[first s] rest].
  - inversion H. lia.
  - pose proof (closure_alphabeta_loop self time_left
                  (@stops_at_first_low self time_left)
                  (stops_ret self time_left) (stops_check self time_left)
                  (stops_bind self time_left) depth beta
                  ((first, s) :: rest) alpha NInf first (S t)) as Hs.
    rewrite H in Hs. lia.
Qed.

Lemma deepening_returns_at_first_low game n fuel :
  forall depth best_move t,
    first_low self time_left t n ->
    (n - t < fuel)%nat ->
    exists m,
      AlphaBetaPlayer.deepening self time_left fuel game depth best_move t
      = Some (m, S n).
Proof.
  induction fuel as [|fuel IH]; intros depth best_move t Hfirst Hfuel;
    [lia|].
  destruct Hfirst as (Hle & Hlow & Hno).
  cbn [AlphaBetaPlayer.deepening].
  pose proof (stops_alphabeta game depth NInf PInf t) as Hs.
  destruct (AlphaBetaPlayer.alphabeta self time_left game depth NInf PInf t)
    as [m t'|t'] eqn:E.
  - destruct Hs as (Hle' & Hno').
    apply alphabeta_reads_clock in E.
    assert (t' <= n)%nat.
    { destruct (Nat.le_gt_cases t' n) as [H|H]; [exact H|].
      exfalso. apply (Hno' n); [lia|exact Hlow]. }
    apply IH; [|lia].
    split; [lia|]. split; [exact Hlow|].
    intros i Hi. apply Hno. lia.
  - destruct Hs as (k & -> & Hle' & Hlow' & Hno').
    exists best_move. do 2 f_equal.
    destruct (Nat.lt_trichotomy k n) as [H|[H|H]]; [|now rewrite H|].
    + exfalso. apply (Hno k); [lia|exact Hlow'].
    + exfalso. apply (Hno' n); [lia|exact Hlow].
Qed.

Lemma deepening_never_returns game fuel :
  never_expires self time_left ->
  forall depth best_move t,
    AlphaBetaPlayer.deepening self time_left fuel game depth best_move t
    = None.
Proof.
  intros Hclock.
  induction fuel as [|fuel IH]; intros depth best_move t; [reflexivity|].
  cbn [AlphaBetaPlayer.deepening].
  pose proof (stops_alphabeta game depth NInf PInf t) as Hs.
  destruct (AlphaBetaPlayer.alphabeta self time_left game depth NInf PInf t)
    as [m t'|t'].
  - apply IH.
  - destruct Hs as (k & _ & _ & Hlow & _). contradiction (Hclock k).
Qed.

Lemma alphabeta_returns_legal game depth alpha beta t m t' :
  successors game <> [] ->
  AlphaBetaPlayer.alphabeta self time_left game depth alpha beta t
  = Done m t' ->
  In m (get_legal_moves game).
Proof.
  intros Hne H. unfold get_legal_moves.
  unfold AlphaBetaPlayer.alphabeta in H.
  destruct (successors game) as [|[first s] rest] eqn:Hs;
    [contradiction Hne; reflexivity|].
  apply bind_Done in H. destruct H as (_ & t1 & _ & H).
  apply alphabeta_loop_returns_seen in H.
  destruct H as [->|H]; [left; reflexivity|exact H].
Qed.

Lemma deepening_returns_seen game fuel :
  successors game <> [] ->
  forall depth best_move t m t',
    AlphaBetaPlayer.deepening self time_left fuel game depth best_move t
    = Some (m, t') ->
    m = best_move \/ In m (get_legal_moves game).
Proof.
  intros Hne.
  induction fuel as [|fuel IH]; intros depth best_move t m t' H;
    [discriminate|].
  cbn [AlphaBetaPlayer.deepening] in H.
  destruct (AlphaBetaPlayer.alphabeta self time_left game depth NInf PInf t)
    as [m1 t1|t1] eqn:E.
  - apply IH in H. destruct H as [->|H]; [|right; exact H].
    right. eapply alphabeta_returns_legal; eassumption.
  - inversion H. left. reflexivity.
Qed.

End Drivers.

(** X5: [MinimaxPlayer.get_move] never lets [SearchTimeout] escape: for
    every clock it returns a move, which is [(-1, -1)] or one of the
    legal moves of the state. *)
Theorem minimax_get_move_always_returns
    (self : IsolationPlayer) (time_left : nat -> Q) (game : Board)
    (t : nat) :
  exists m t',
    MinimaxPlayer.get_move self time_left game t = Done m t' /\
    (m = no_move \/ In m (get_legal_moves game)).
Proof.
  unfold MinimaxPlayer.get_move, try_except.
  destruct (MinimaxPlayer.minimax self time_left game (search_depth self) t)
    as [m t'|t'] eqn:E.
  - exists m, t'. split; [reflexivity|].
    unfold MinimaxPlayer.minimax in E.
    apply bind_Done in E. destruct E as (_ & t1 & _ & E).
    unfold get_legal_moves.
    destruct (successors game) as [|[first s] rest].
    + inversion E. left. reflexivity.
    + right. apply minimax_loop_returns_seen in E.
      destruct E as [->|E]; [left; reflexivity|exact E].
  - exists no_move, t'. split; [reflexivity|]. left. reflexivity.
Qed.

(** X6: on a state where [get_legal_moves(self)] and
    [get_legal_moves()] agree, a move returned by
    [AlphaBetaPlayer.get_move] is a legal move, and is [(-1, -1)] only
    when there is no legal move. *)
Theorem alphabeta_get_move_returns_legal
    (self : IsolationPlayer) (time_left : nat -> Q) (fuel : nat)
    (game : Board) (t t' : nat) (m : Move) :
  get_legal_moves_of game (ident self) = get_legal_moves game ->
  AlphaBetaPlayer.get_move self time_left fuel game t = Some (m, t') ->
  (get_legal_moves game = [] /\ m = no_move) \/
  In m (get_legal_moves game).
Proof.
  intros Hsame H. unfold AlphaBetaPlayer.get_move in H.
  rewrite Hsame in H.
  destruct (get_legal_moves game) as [|first others] eqn:Hl.
  - inversion H. left. split; reflexivity.
  - right.
    assert (Hne : successors game <> []).
    { intros Hnil. unfold get_legal_moves in Hl. rewrite Hnil in Hl.
      discriminate. }
    apply (deepening_returns_seen self time_left game fuel Hne) in H.
    rewrite Hl in H.
    destruct H as [->|H]; [left; reflexivity|exact H].
Qed.

Lemma alphabeta_get_move_returns_legal_witness :
  (get_legal_moves crossroads = [] /\ (0, 1) = no_move) \/
  In (0, 1) (get_legal_moves crossroads).
Proof.
  apply (alphabeta_get_move_returns_legal me (low_from 12) 4 crossroads
           0%nat 13%nat (0, 1)).
  - reflexivity.
  - vm_compute. reflexivity.
Defined.

(** X7: on a state with legal moves, when [n] is the first reading of
    the clock below the threshold, [AlphaBetaPlayer.get_move] returns,
    and has taken exactly the readings up to [n] (any number of rounds
    above [n - t] is enough for the loop to end). *)
Theorem alphabeta_get_move_returns_at_first_low
    (self : IsolationPlayer) (time_left : nat -> Q) (fuel : nat)
    (game : Board) (t n : nat) :
  get_legal_moves_of game (ident self) <> [] ->
  first_low self time_left t n ->
  (n - t < fuel)%nat ->
  exists m,
    AlphaBetaPlayer.get_move self time_left fuel game t = Some (m, S n).
Proof.
  intros Hne Hfirst Hfuel. unfold AlphaBetaPlayer.get_move.
  destruct (get_legal_moves_of game (ident self)) as [|first others];
    [contradiction Hne; reflexivity|].
  apply deepening_returns_at_first_low; assumption.
Qed.

Lemma low_from_first_low n : first_low me (low_from n) 0 n.
Proof.
  unfold first_low, below_threshold, low_from. split; [lia|]. split.
  - rewrite Nat.ltb_irrefl. reflexivity.
  - intros i Hi. destruct (Nat.ltb_spec i n); [|lia].
    intros Hb. vm_compute in Hb. discriminate.
Qed.

Lemma alphabeta_get_move_returns_at_first_low_witness :
  exists m,
    AlphaBetaPlayer.get_move me (low_from 12) 13 crossroads 0%nat
    = Some (m, 13%nat).
Proof.
  apply (alphabeta_get_move_returns_at_first_low me (low_from 12) 13
           crossroads 0%nat 12%nat).
  - discriminate.
  - apply low_from_first_low.
  - vm_compute. reflexivity.
Defined.

(** X8: on a state with legal moves and under a clock that never reads
    below the threshold, the loop of [AlphaBetaPlayer.get_move] has no
    exit: it is still running after any number of rounds. *)
Theorem alphabeta_get_move_needs_low_reading
    (self : IsolationPlayer) (time_left : nat -> Q) (fuel : nat)
    (game : Board) (t : nat) :
  never_expires self time_left ->
  get_legal_moves_of game (ident self) <> [] ->
  AlphaBetaPlayer.get_move self time_left fuel game t = None.
Proof.
  intros Hclock Hne. unfold AlphaBetaPlayer.get_move.
  destruct (get_legal_moves_of game (ident self)) as [|first others];
    [contradiction Hne; reflexivity|].
  apply deepening_never_returns. exact Hclock.
Qed.

Lemma alphabeta_get_move_needs_low_reading_witness :
  AlphaBetaPlayer.get_move me plenty 5 crossroads 0%nat = None.
Proof.
  apply (alphabeta_get_move_needs_low_reading me plenty 5 crossroads 0%nat).
  - apply plenty_never_expires.
  - discriminate.
Defined.

(** ** The values of minimax are heuristic values of reachable states *)

Section Scores.
Variable self : IsolationPlayer.
Variable time_left : nat -> Q.

Let is_score_below (b : Board) (v : pyfloat) : Prop :=
  exists s, reachable b s /\ v = score self s (ident self).

Lemma pymin_PInf_l v : pymin PInf v = v.
Proof. destruct v; reflexivity. Qed.

Lemma pymax_NInf_l v : pymax NInf v = v.
Proof. destruct v; reflexivity. Qed.

Lemma min_play_loop_picks child moves :
  Forall (fun mc => forall t w t',
              child (snd mc) t = Done w t' -> is_score_below (snd mc) w)
         moves ->
  forall lowest_score t v t',
    MinimaxPlayer.min_play_loop child moves lowest_score t = Done v t' ->
    v = lowest_score \/
    exists mc, In mc moves /\ is_score_below (snd mc) v.
Proof.
  induction 1 as [|[move s] rest Hs _ IH]; intros lowest_score t v t' H.
  - inversion H. left. reflexivity.
  - cbn [MinimaxPlayer.min_play_loop] in H.
    apply bind_Done in H. destruct H as (w & t1 & Hw & H).
    apply IH in H. destruct H as [->|(mc & Hin & Hmc)].
    + unfold pymin. destruct (fltb w lowest_score); [|left; reflexivity].
      right. exists (move, s). split; [left; reflexivity|].
      eapply Hs. exact Hw.
    + right. exists mc. split; [right; exact Hin|exact Hmc].
Qed.

Lemma max_play_loop_picks child moves :
  Forall (fun mc => forall t w t',
              child (snd mc) t = Done w t' -> is_score_below (snd mc) w)
         moves ->
  forall highest_score t v t',
    MinimaxPlayer.max_play_loop child moves highest_score t = Done v t' ->
    v = highest_score \/
    exists mc, In mc moves /\ is_score_below (snd mc) v.
Proof.
  induction 1 as [|[move s] rest Hs _ IH]; intros highest_score t v t' H.
  - inversion H. left. reflexivity.
  - cbn [MinimaxPlayer.max_play_loop] in H.
    apply bind_Done in H. destruct H as (w & t1 & Hw & H).
    apply IH in H. destruct H as [->|(mc & Hin & Hmc)].
    + unfold pymax. destruct (fltb highest_score w); [|left; reflexivity].
      right. exists (move, s). split; [left; reflexivity|].
      eapply Hs. exact Hw.
    + right. exists mc. split; [right; exact Hin|exact Hmc].
Qed.

Lemma is_score_below_child b mc v :
  In mc (successors b) -> is_score_below (snd mc) v -> is_score_below b v.
Proof.
  destruct mc as [move c]. intros Hin (s & Hreach & Hv).
  exists s. split; [|exact Hv].
  eapply reachable_move; eassumption.
Qed.

Lemma plays_return_scores future_state :
  forall depth t v t',
    (MinimaxPlayer.min_play self time_left future_state depth t = Done v t'
     -> is_score_below future_state v) /\
    (MinimaxPlayer.max_play self time_left future_state depth t = Done v t'
     -> is_score_below future_state v).
Proof.
  induction future_state as [b IH] using Board_tree_ind.
  intros depth t v t'. rewrite min_play_eq, max_play_eq.
  split; intros H; apply bind_Done in H; destruct H as (_ & t1 & _ & H);
    (destruct ((depth =? 0) || is_empty (successors b)) eqn:Eleaf;
     [inversion H; unfold is_score_below; exists b; split;
      [apply reachable_here|reflexivity]|]).
  - destruct (successors b) as [|[move s] rest] eqn:Hsucc;
      [rewrite orb_true_r in Eleaf; discriminate|].
    cbn [MinimaxPlayer.min_play_loop] in H.
    apply bind_Done in H. destruct H as (w & t2 & Hw & H).
    rewrite pymin_PInf_l in H.
    try rewrite Hsucc in IH.
    inversion IH as [|? ? Hs Hrest]; subst.
    apply min_play_loop_picks in H.
    + destruct H as [->|(mc & Hin & Hmc)].
      * apply (is_score_below_child _ (move, s));
          [rewrite Hsucc; left; reflexivity|].
        eapply (proj2 (Hs (depth - 1) t1 w t2)). exact Hw.
      * apply (is_score_below_child _ mc);
          [rewrite Hsucc; right; exact Hin|exact Hmc].
    + eapply Forall_impl; [|exact Hrest].
      intros mc Hmc t0 w0 t0' Hrun.
      eapply (proj2 (Hmc (depth - 1) t0 w0 t0')). exact Hrun.
  - destruct (successors b) as [|[move s] rest] eqn:Hsucc;
      [rewrite orb_true_r in Eleaf; discriminate|].
    cbn [MinimaxPlayer.max_play_loop] in H.
    apply bind_Done in H. destruct H as (w & t2 & Hw & H).
    rewrite pymax_NInf_l in H.
    try rewrite Hsucc in IH.
    inversion IH as [|? ? Hs Hrest]; subst.
    apply max_play_loop_picks in H.
    + destruct H as [->|(mc & Hin & Hmc)].
      * apply (is_score_below_child _ (move, s));
          [rewrite Hsucc; left; reflexivity|].
        eapply (proj1 (Hs (depth - 1) t1 w t2)). exact Hw.
      * apply (is_score_below_child _ mc);
          [rewrite Hsucc; right; exact Hin|exact Hmc].
    + eapply Forall_impl; [|exact Hrest].
      intros mc Hmc t0 w0 t0' Hrun.
      eapply (proj1 (Hmc (depth - 1) t0 w0 t0')). exact Hrun.
Qed.

End Scores.

(** X9: a value returned by [min_play] or [max_play] is the value
    [self.score] gives to some state reachable from the state searched. *)
Theorem minimax_value_is_a_reachable_score
    (self : IsolationPlayer) (time_left : nat -> Q) (future_state : Board)
    (depth : Z) (t t' : nat) (v : pyfloat) :
  MinimaxPlayer.min_play self time_left future_state depth t = Done v t' \/
  MinimaxPlayer.max_play self time_left future_state depth t = Done v t' ->
  exists s, reachable future_state s /\ v = score self s (ident self).
Proof.
  destruct (plays_return_scores self time_left future_state depth t v t')
    as (Hmin & Hmax).
  intros [H|H]; [apply Hmin|apply Hmax]; exact H.
Qed.

Lemma minimax_value_is_a_reachable_score_witness :
  exists s, reachable safe s /\ Fin 2 = score me s (ident me).
Proof.
  apply (minimax_value_is_a_reachable_score me plenty safe 1 0%nat 3%nat
           (Fin 2)).
  left. vm_compute. reflexivity.
Defined.

(** ** The bounds an interior node hands back *)

Lemma pymin_le_l a b : fle (pymin a b) a.
Proof. forder. Qed.

Lemma pymax_ge_l a b : fle a (pymax a b).
Proof. forder. Qed.

Lemma ab_min_play_loop_at_most_beta child alpha moves :
  forall lowest_score beta t r t',
    AlphaBetaPlayer.ab_min_play_loop child alpha moves lowest_score beta t
    = Done r t' ->
    fle r beta.
Proof.
  induction moves as [|[move s] rest IH]; intros lowest_score beta t r t' H.
  - inversion H. apply fle_refl.
  - cbn [AlphaBetaPlayer.ab_min_play_loop] in H.
    apply bind_Done in H. destruct H as (v & t1 & _ & H). cbv zeta in H.
    destruct (fleb (pymin beta (pymin lowest_score v)) alpha).
    + inversion H. apply pymin_le_l.
    + apply IH in H. eapply fle_trans; [exact H|apply pymin_le_l].
Qed.

Lemma ab_max_play_loop_at_least_alpha child beta moves :
  forall highest_score alpha t r t',
    AlphaBetaPlayer.ab_max_play_loop child beta moves highest_score alpha t
    = Done r t' ->
    fle alpha r.
Proof.
  induction moves as [|[move s] rest IH]; intros highest_score alpha t r t' H.
  - inversion H. apply fle_refl.
  - cbn [AlphaBetaPlayer.ab_max_play_loop] in H.
    apply bind_Done in H. destruct H as (v & t1 & _ & H). cbv zeta in H.
    destruct (fleb beta (pymax alpha (pymax highest_score v))).
    + inversion H. apply pymax_ge_l.
    + apply IH in H. eapply fle_trans; [apply pymax_ge_l|exact H].
Qed.

Lemma leaf_test depth (future_state : Board) :
  (depth =? 0) || is_empty (successors future_state) = true ->
  depth = 0 \/ get_legal_moves future_state = [].
Proof.
  intros H. apply orb_true_iff in H. destruct H as [H|H].
  - left. apply Z.eqb_eq. exact H.
  - right. unfold get_legal_moves.
    destruct (successors future_state); [reflexivity|discriminate].
Qed.

(** X10: [ab_min_play] returns a value above [beta], and [ab_max_play]
    a value below [alpha], only at a leaf of the search (depth 0 or no
    legal move), where the value is the heuristic value of the state:
    after its loop [ab_min_play] returns [beta], lowered or not, and
    [ab_max_play] returns [alpha], raised or not. *)
Theorem alphabeta_value_outside_window_only_at_leaf
    (self : IsolationPlayer) (time_left : nat -> Q) (future_state : Board)
    (depth : Z) (alpha beta r : pyfloat) (t t' : nat) :
  (AlphaBetaPlayer.ab_min_play self time_left future_state depth alpha beta t
   = Done r t' /\ flt beta r) \/
  (AlphaBetaPlayer.ab_max_play self time_left future_state depth alpha beta t
   = Done r t' /\ flt r alpha) ->
  (depth = 0 \/ get_legal_moves future_state = []) /\
  r = score self future_state (ident self).
Proof.
  rewrite ab_min_play_eq, ab_max_play_eq.
  intros [[H Hout]|[H Hout]];
    apply bind_Done in H; destruct H as (_ & t1 & _ & H);
    destruct ((depth =? 0) || is_empty (successors future_state)) eqn:Eleaf.
  - split; [apply leaf_test; exact Eleaf|]. inversion H. reflexivity.
  - apply ab_min_play_loop_at_most_beta in H.
    unfold fle in H. unfold flt in Hout. congruence.
  - split; [apply leaf_test; exact Eleaf|]. inversion H. reflexivity.
  - apply ab_max_play_loop_at_least_alpha in H.
    unfold fle in H. unfold flt in Hout. congruence.
Qed.

Lemma alphabeta_value_outside_window_only_at_leaf_witness :
  (0 = 0 \/ get_legal_moves trap = []) /\
  Fin 1 = score me trap (ident me).
Proof.
  apply (alphabeta_value_outside_window_only_at_leaf me plenty trap 0
           NInf (Fin (1 # 2)) (Fin 1) 0%nat 1%nat).
  left. split; vm_compute; reflexivity.
Defined.

(** ** Depths that never reach the base case *)

Section NegativeDepth.
Variable self : IsolationPlayer.
Variable time_left : nat -> Q.

Lemma bind_ext {A B : Type} (m : M A) (k1 k2 : A -> M B) t :
  (forall a t1, k1 a t1 = k2 a t1) -> bind m k1 t = bind m k2 t.
Proof. intros H. unfold bind. destruct (m t); [apply H|reflexivity]. Qed.

Lemma min_play_loop_ext child1 child2 moves :
  Forall (fun mc => forall t, child1 (snd mc) t = child2 (snd mc) t) moves ->
  forall lowest_score t,
    MinimaxPlayer.min_play_loop child1 moves lowest_score t
    = MinimaxPlayer.min_play_loop child2 moves lowest_score t.
Proof.
  induction 1 as [|[move s] rest Hs _ IH]; intros lowest_score t;
    [reflexivity|].
  cbn [MinimaxPlayer.min_play_loop]. unfold bind. simpl in Hs. rewrite Hs.
  destruct (child2 s t); [apply IH|reflexivity].
Qed.

Lemma max_play_loop_ext child1 child2 moves :
  Forall (fun mc => forall t, child1 (snd mc) t = child2 (snd mc) t) moves ->
  forall highest_score t,
    MinimaxPlayer.max_play_loop child1 moves highest_score t
    = MinimaxPlayer.max_play_loop child2 moves highest_score t.
Proof.
  induction 1 as [|[move s] rest Hs _ IH]; intros highest_score t;
    [reflexivity|].
  cbn [MinimaxPlayer.max_play_loop]. unfold bind. simpl in Hs. rewrite Hs.
  destruct (child2 s t); [apply IH|reflexivity].
Qed.

Lemma ab_min_play_loop_ext child1 child2 alpha moves :
  Forall (fun mc => forall a b t,
              child1 (snd mc) a b t = child2 (snd mc) a b t) moves ->
  forall lowest_score beta t,
    AlphaBetaPlayer.ab_min_play_loop child1 alpha moves lowest_score beta t
    = AlphaBetaPlayer.ab_min_play_loop child2 alpha moves lowest_score beta t.
Proof.
  induction 1 as [|[move s] rest Hs _ IH]; intros lowest_score beta t;
    [reflexivity|].
  cbn [AlphaBetaPlayer.ab_min_play_loop]. unfold bind. simpl in Hs. rewrite Hs.
  destruct (child2 s alpha beta t) as [v t1|t1];
    [|reflexivity].
  cbv zeta. destruct (fleb _ alpha); [reflexivity|apply IH].
Qed.

Lemma ab_max_play_loop_ext child1 child2 beta moves :
  Forall (fun mc => forall a b t,
              child1 (snd mc) a b t = child2 (snd mc) a b t) moves ->
  forall highest_score alpha t,
    AlphaBetaPlayer.ab_max_play_loop child1 beta moves highest_score alpha t
    = AlphaBetaPlayer.ab_max_play_loop child2 beta moves highest_score alpha t.
Proof.
  induction 1 as [|[move s] rest Hs _ IH]; intros highest_score alpha t;
    [reflexivity|].
  cbn [AlphaBetaPlayer.ab_max_play_loop]. unfold bind. simpl in Hs. rewrite Hs.
  destruct (child2 s alpha beta t) as [v t1|t1];
    [|reflexivity].
  cbv zeta. destruct (fleb beta _); [reflexivity|apply IH].
Qed.

Lemma negative_depth_test d : d < 0 -> (d =? 0) = false.
Proof. intros H. apply Z.eqb_neq. lia. Qed.

Lemma plays_negative_depths future_state :
  forall d d', d < 0 -> d' < 0 ->
    (forall t,
        MinimaxPlayer.min_play self time_left future_state d t
        = MinimaxPlayer.min_play self time_left future_state d' t) /\
    (forall t,
        MinimaxPlayer.max_play self time_left future_state d t
        = MinimaxPlayer.max_play self time_left future_state d' t) /\
    (forall a b t,
        AlphaBetaPlayer.ab_min_play self time_left future_state d a b t
        = AlphaBetaPlayer.ab_min_play self time_left future_state d' a b t) /\
    (forall a b t,
        AlphaBetaPlayer.ab_max_play self time_left future_state d a b t
        = AlphaBetaPlayer.ab_max_play self time_left future_state d' a b t).
Proof.
  induction future_state as [b IH] using Board_tree_ind.
  intros d d' Hd Hd'.
  assert (Hkids : Forall (fun mc => _) (successors b))
    by (eapply Forall_impl; [|exact IH]; intros mc H;
        exact (H (d - 1) (d' - 1) ltac:(lia) ltac:(lia))).
  split; [|split; [|split]]; intros; 
    rewrite ?min_play_eq, ?max_play_eq, ?ab_min_play_eq, ?ab_max_play_eq;
    rewrite (negative_depth_test d Hd), (negative_depth_test d' Hd');
    apply bind_ext; intros _ t1;
    (destruct (false || is_empty (successors b)); [reflexivity|]).
  - apply min_play_loop_ext.
    eapply Forall_impl; [|exact Hkids]. intros mc H. apply H.
  - apply max_play_loop_ext.
    eapply Forall_impl; [|exact Hkids]. intros mc H. apply H.
  - apply ab_min_play_loop_ext.
    eapply Forall_impl; [|exact Hkids]. intros mc H. apply H.
  - apply ab_max_play_loop_ext.
    eapply Forall_impl; [|exact Hkids]. intros mc H. apply H.
Qed.

Lemma minimax_loop_ext d d' moves :
  d <= 0 -> d' <= 0 ->
  forall best_score best_move t,
    MinimaxPlayer.minimax_loop self time_left d moves best_score best_move t
    = MinimaxPlayer.minimax_loop self time_left d' moves best_score
        best_move t.
Proof.
  intros Hd Hd'.
  induction moves as [|[move s] rest IH]; intros best_score best_move t;
    [reflexivity|].
  cbn [MinimaxPlayer.minimax_loop]. unfold bind.
  destruct (plays_negative_depths s (d - 1) (d' - 1)
              ltac:(lia) ltac:(lia)) as (Hmin & _).
  rewrite Hmin.
  destruct (MinimaxPlayer.min_play self time_left s (d' - 1) t)
    as [v t1|t1]; [|reflexivity].
  destruct (fltb best_score v); apply IH.
Qed.

Lemma alphabeta_loop_ext d d' beta moves :
  d <= 0 -> d' <= 0 ->
  forall alpha best_score best_move t,
    AlphaBetaPlayer.alphabeta_loop self time_left d beta moves alpha
      best_score best_move t
    = AlphaBetaPlayer.alphabeta_loop self time_left d' beta moves alpha
        best_score best_move t.
Proof.
  intros Hd Hd'.
  induction moves as [|[move s] rest IH];
    intros alpha best_score best_move t; [reflexivity|].
  cbn [AlphaBetaPlayer.alphabeta_loop]. unfold bind.
  destruct (plays_negative_depths s (d - 1) (d' - 1)
              ltac:(lia) ltac:(lia)) as (_ & _ & Hmin & _).
  rewrite Hmin.
  destruct (AlphaBetaPlayer.ab_min_play self time_left s (d' - 1) alpha
              beta t) as [v t1|t1]; [|reflexivity].
  destruct (fltb beta v); [reflexivity|]. cbv zeta.
  destruct (fltb best_score v); apply IH.
Qed.

End NegativeDepth.

(** X11: [minimax] and [alphabeta] behave the same at every depth
    [d <= 0]: the children are searched with a negative depth, which the
    test [depth == 0] never meets, so the search stops only at states
    without legal moves. *)
Theorem nonpositive_depths_search_alike
    (self : IsolationPlayer) (time_left : nat -> Q) (game : Board)
    (d d' : Z) (alpha beta : pyfloat) (t : nat) :
  d <= 0 -> d' <= 0 ->
  MinimaxPlayer.minimax self time_left game d t
  = MinimaxPlayer.minimax self time_left game d' t /\
  AlphaBetaPlayer.alphabeta self time_left game d alpha beta t
  = AlphaBetaPlayer.alphabeta self time_left game d' alpha beta t.
Proof.
  intros Hd Hd'.
  unfold MinimaxPlayer.minimax, AlphaBetaPlayer.alphabeta.
  split; apply bind_ext; intros _ t1; cbv zeta;
    (destruct (successors game) as [|[first s] rest]; [reflexivity|]).
  - apply minimax_loop_ext; assumption.
  - apply alphabeta_loop_ext; assumption.
Qed.

Lemma nonpositive_depths_search_alike_witness :
  MinimaxPlayer.minimax me plenty crossroads 0 0%nat
  = MinimaxPlayer.minimax me plenty crossroads (-7) 0%nat /\
  AlphaBetaPlayer.alphabeta me plenty crossroads 0 NInf PInf 0%nat
  = AlphaBetaPlayer.alphabeta me plenty crossroads (-7) NInf PInf 0%nat.
Proof.
  apply (nonpositive_depths_search_alike me plenty crossroads 0 (-7)
           NInf PInf 0%nat); lia.
Defined.

(** ** Alpha-beta values against minimax values *)

(** X12: under a clock that never runs low and a window
    [alpha < beta], the value [ab_min_play] ([ab_max_play]) returns for a
    state is the value [min_play] ([max_play]) returns when that lies
    strictly inside the window, is at most [alpha] when that is at most
    [alpha], and at least [beta] when that is at least [beta]. *)
Theorem alphabeta_value_respects_window
    (self : IsolationPlayer) (time_left : nat -> Q) (future_state : Board)
    (depth : Z) (alpha beta : pyfloat) :
  never_expires self time_left ->
  flt alpha beta ->
  (exists v r,
      returns (MinimaxPlayer.min_play self time_left future_state depth) v /\
      returns (AlphaBetaPlayer.ab_min_play self time_left future_state depth
                 alpha beta) r /\
      within_window alpha beta v r) /\
  (exists v r,
      returns (MinimaxPlayer.max_play self time_left future_state depth) v /\
      returns (AlphaBetaPlayer.ab_max_play self time_left future_state depth
                 alpha beta) r /\
      within_window alpha beta v r).
Proof.
  intros Hclock Hab.
  destruct (plays_agree self time_left Hclock future_state depth)
    as ((v & Hv & Hr) & (v' & Hv' & Hr')).
  destruct (Hr alpha beta) as (r & Hrr & Hw).
  destruct (Hr' alpha beta) as (r' & Hrr' & Hw').
  split; [exists v, r|exists v', r']; auto.
Qed.

Lemma alphabeta_value_respects_window_witness :
  (exists v r,
      returns (MinimaxPlayer.min_play me plenty safe 1) v /\
      returns (AlphaBetaPlayer.ab_min_play me plenty safe 1
                 NInf (Fin 1)) r /\
      within_window NInf (Fin 1) v r) /\
  (exists v r,
      returns (MinimaxPlayer.max_play me plenty safe 1) v /\
      returns (AlphaBetaPlayer.ab_max_play me plenty safe 1
                 NInf (Fin 1)) r /\
      within_window NInf (Fin 1) v r).
Proof.
  apply (alphabeta_value_respects_window me plenty safe 1 NInf (Fin 1)).
  - apply plenty_never_expires.
  - reflexivity.
Defined.

Lemma within_unbounded_window v r : within_window NInf PInf v r -> feq r v.
Proof. intros; forder. Qed.

(** X13: under a clock that never runs low, [ab_min_play] and
    [ab_max_play] called with the window [(-inf, +inf)] return the value
    [min_play] and [max_play] return. *)
Theorem alphabeta_value_is_minimax_value_when_unbounded
    (self : IsolationPlayer) (time_left : nat -> Q) (future_state : Board)
    (depth : Z) :
  never_expires self time_left ->
  (exists v r,
      returns (MinimaxPlayer.min_play self time_left future_state depth) v /\
      returns (AlphaBetaPlayer.ab_min_play self time_left future_state depth
                 NInf PInf) r /\
      feq r v) /\
  (exists v r,
      returns (MinimaxPlayer.max_play self time_left future_state depth) v /\
      returns (AlphaBetaPlayer.ab_max_play self time_left future_state depth
                 NInf PInf) r /\
      feq r v).
Proof.
  intros Hclock.
  destruct (plays_agree self time_left Hclock future_state depth)
    as ((v & Hv & Hr) & (v' & Hv' & Hr')).
  destruct (Hr NInf PInf) as (r & Hrr & Hw).
  destruct (Hr' NInf PInf) as (r' & Hrr' & Hw').
  split; [exists v, r|exists v', r']; (split; [assumption|]);
    (split; [assumption|]); apply within_unbounded_window;
    [apply Hw|apply Hw']; reflexivity.
Qed.

Lemma alphabeta_value_is_minimax_value_when_unbounded_witness :
  (exists v r,
      returns (MinimaxPlayer.min_play me plenty crossroads 3) v /\
      returns (AlphaBetaPlayer.ab_min_play me plenty crossroads 3
                 NInf PInf) r /\
      feq r v) /\
  (exists v r,
      returns (MinimaxPlayer.max_play me plenty crossroads 3) v /\
      returns (AlphaBetaPlayer.ab_max_play me plenty crossroads 3
                 NInf PInf) r /\
      feq r v).
Proof.
  apply (alphabeta_value_is_minimax_value_when_unbounded me plenty
           crossroads 3).
  apply plenty_never_expires.
Defined.

(** ** The choice at the root of minimax *)

Section RootChoice.
Variable self : IsolationPlayer.
Variable time_left : nat -> Q.
Hypothesis Hclock : never_expires self time_left.
Variable depth : Z.

Let value (c : Board) (v : pyfloat) : Prop :=
  returns (MinimaxPlayer.min_play self time_left c (depth - 1)) v.

Lemma minimax_loop_choice moves :
  forall best_score best_move,
  exists m,
    returns (MinimaxPlayer.minimax_loop self time_left depth moves
               best_score best_move) m /\
    ((m = best_move /\
      forall j m' c' v',
        nth_error moves j = Some (m', c') -> value c' v' ->
        fle v' best_score) \/
     exists i c vc,
       nth_error moves i = Some (m, c) /\ value c vc /\
       flt best_score vc /\
       forall j m' c' v',
         nth_error moves j = Some (m', c') -> value c' v' ->
         fle v' vc /\ ((j < i)%nat -> flt v' vc)).
Proof.
  induction moves as [|[move s] rest IH]; intros best_score best_move.
  - exists best_move. split; [apply returns_ret|]. left.
    split; [reflexivity|]. intros [|j] m' c' v' H; discriminate H.
  - destruct (plays_agree self time_left Hclock s (depth - 1))
      as ((v & Hv & _) & _).
    cbn [MinimaxPlayer.minimax_loop].
    destruct (fltb best_score v) eqn:E.
    + destruct (IH v move) as (m & Hrun & Hcase).
      exists m. split.
      { eapply returns_bind; [exact Hv|]. rewrite E. exact Hrun. }
      right.
      destruct Hcase as [[-> Hall]|(i & c & vc & Hnth & Hvc & Hgt & Hall)].
      * exists 0%nat, s, v. split; [reflexivity|]. split; [exact Hv|].
        split; [exact E|].
        intros [|j] m' c' v' H Hv'; simpl in H.
        -- inversion H; subst.
           assert (v' = v) by (eapply returns_unique; eassumption).
           subst v'. split; [apply fle_refl|lia].
        -- split; [eapply Hall; eassumption|lia].
      * exists (S i), c, vc. split; [exact Hnth|]. split; [exact Hvc|].
        split; [eapply flt_trans; eassumption|].
        intros [|j] m' c' v' H Hv'; simpl in H.
        -- inversion H; subst.
           assert (v' = v) by (eapply returns_unique; eassumption).
           subst v'. split; [apply flt_fle; exact Hgt|intros _; exact Hgt].
        -- destruct (Hall j m' c' v' H Hv') as (Hle & Hlt).
           split; [exact Hle|]. intros Hj. apply Hlt. lia.
    + destruct (IH best_score best_move) as (m & Hrun & Hcase).
      exists m. split.
      { eapply returns_bind; [exact Hv|]. rewrite E. exact Hrun. }
      destruct Hcase as [[-> Hall]|(i & c & vc & Hnth & Hvc & Hgt & Hall)].
      * left. split; [reflexivity|].
        intros [|j] m' c' v' H Hv'; simpl in H.
        -- inversion H; subst.
           assert (v' = v) by (eapply returns_unique; eassumption).
           subst v'. exact E.
        -- eapply Hall; eassumption.
      * right. exists (S i), c, vc. split; [exact Hnth|].
        split; [exact Hvc|]. split; [exact Hgt|].
        intros [|j] m' c' v' H Hv'; simpl in H.
        -- inversion H; subst.
           assert (v' = v) by (eapply returns_unique; eassumption).
           subst v'.
           assert (flt v vc) by (eapply fle_flt_trans; [exact E|exact Hgt]).
           split; [apply flt_fle; assumption|intros _; assumption].
        -- destruct (Hall j m' c' v' H Hv') as (Hle & Hlt).
           split; [exact Hle|]. intros Hj. apply Hlt. lia.
Qed.

End RootChoice.

(** X14: under a clock that never runs low, at every depth, [minimax]
    returns the first legal move, in enumeration order, among those whose
    successor state gets the highest value from [min_play] at
    [depth - 1]. *)
Theorem minimax_returns_first_best_at_any_depth
    (self : IsolationPlayer) (time_left : nat -> Q) (game : Board)
    (depth : Z) :
  never_expires self time_left ->
  get_legal_moves game <> [] ->
  exists m,
    returns (MinimaxPlayer.minimax self time_left game depth) m /\
    first_best_by
      (fun c v =>
         returns (MinimaxPlayer.min_play self time_left c (depth - 1)) v)
      (successors game) m.
Proof.
  intros Hclock Hne. unfold get_legal_moves in Hne.
  unfold MinimaxPlayer.minimax.
  destruct (successors game) as [|[first s0] rest] eqn:E;
    [contradiction Hne; reflexivity|].
  destruct (minimax_loop_choice self time_left Hclock depth
              ((first, s0) :: rest) NInf first) as (m & Hrun & Hcase).
  exists m. split.
  { eapply returns_bind; [apply returns_check; exact Hclock|exact Hrun]. }
  destruct Hcase as [[-> Hall]|(i & c & vc & Hnth & Hvc & Hgt & Hall)].
  - destruct (plays_agree self time_left Hclock s0 (depth - 1))
      as ((v & Hv & _) & _).
    exists 0%nat, s0, v. split; [reflexivity|]. split; [exact Hv|].
    intros j m' c' v' H Hv'. split; [|lia].
    eapply fle_trans; [eapply Hall; eassumption|apply fle_NInf].
  - exists i, c, vc. auto.
Qed.

Lemma minimax_returns_first_best_at_any_depth_witness :
  exists m,
    returns (MinimaxPlayer.minimax me plenty crossroads 2) m /\
    first_best_by
      (fun c v => returns (MinimaxPlayer.min_play me plenty c (2 - 1)) v)
      (successors crossroads) m.
Proof.
  apply (minimax_returns_first_best_at_any_depth me plenty crossroads 2).
  - apply plenty_never_expires.
  - discriminate.
Defined.

(** ** Alpha-beta never searches more than minimax *)

Section Cost.
Variable self : IsolationPlayer.
Variable time_left : nat -> Q.
Hypothesis Hclock : never_expires self time_left.

Lemma runs_ret {A : Type} (a : A) : runs (ret a) a 0.
Proof. intros t. reflexivity. Qed.

Lemma runs_check : runs (check_deadline self time_left) tt 1.
Proof. intros t. apply check_deadline_pass. apply Hclock. Qed.

Lemma runs_bind {A B : Type} (m : M A) (k : A -> M B) a b n n' :
  runs m a n -> runs (k a) b n' -> runs (bind m k) b (n' + n).
Proof.
  intros Hm Hk t. unfold bind. rewrite Hm, Hk. f_equal. lia.
Qed.

Lemma ab_min_play_loop_cheaper child_mm child_ab alpha moves :
  Forall (fun mc => node_cheaper (child_mm (snd mc)) (child_ab (snd mc)))
         moves ->
  forall L, exists V N,
      runs (MinimaxPlayer.min_play_loop child_mm moves L) V N /\
      forall lowest beta, exists R K,
          runs (AlphaBetaPlayer.ab_min_play_loop child_ab alpha moves
                  lowest beta) R K /\
          (K <= N)%nat.
Proof.
  induction 1 as [|[move s] rest (v & n & Hv & Hr) _ IH]; intros L.
  - exists L, 0%nat. split; [apply runs_ret|].
    intros lowest beta. exists beta, 0%nat. split; [apply runs_ret|lia].
  - destruct (IH (pymin L v)) as (V & N & HV & Hab).
    exists V, (N + n)%nat. split.
    + cbn [MinimaxPlayer.min_play_loop].
      eapply runs_bind; [exact Hv|exact HV].
    + intros lowest beta.
      destruct (Hr alpha beta) as (r & k & Hrr & Hk).
      cbn [AlphaBetaPlayer.ab_min_play_loop].
      destruct (fleb (pymin beta (pymin lowest r)) alpha) eqn:Hbrk.
      * exists (pymin beta (pymin lowest r)), (0 + k)%nat. split; [|lia].
        eapply runs_bind; [exact Hrr|]. cbv zeta. rewrite Hbrk.
        apply runs_ret.
      * destruct (Hab (pymin lowest r) (pymin beta (pymin lowest r)))
          as (R & K & HR & HK).
        exists R, (K + k)%nat. split; [|lia].
        eapply runs_bind; [exact Hrr|]. cbv zeta. rewrite Hbrk. exact HR.
Qed.

Lemma ab_max_play_loop_cheaper child_mm child_ab beta moves :
  Forall (fun mc => node_cheaper (child_mm (snd mc)) (child_ab (snd mc)))
         moves ->
  forall H, exists V N,
      runs (MinimaxPlayer.max_play_loop child_mm moves H) V N /\
      forall highest alpha, exists R K,
          runs (AlphaBetaPlayer.ab_max_play_loop child_ab beta moves
                  highest alpha) R K /\
          (K <= N)%nat.
Proof.
  induction 1 as [|[move s] rest (v & n & Hv & Hr) _ IH]; intros H.
  - exists H, 0%nat. split; [apply runs_ret|].
    intros highest alpha. exists alpha, 0%nat. split; [apply runs_ret|lia].
  - destruct (IH (pymax H v)) as (V & N & HV & Hab).
    exists V, (N + n)%nat. split.
    + cbn [MinimaxPlayer.max_play_loop].
      eapply runs_bind; [exact Hv|exact HV].
    + intros highest alpha.
      destruct (Hr alpha beta) as (r & k & Hrr & Hk).
      cbn [AlphaBetaPlayer.ab_max_play_loop].
      destruct (fleb beta (pymax alpha (pymax highest r))) eqn:Hbrk.
      * exists (pymax alpha (pymax highest r)), (0 + k)%nat. split; [|lia].
        eapply runs_bind; [exact Hrr|]. cbv zeta. rewrite Hbrk.
        apply runs_ret.
      * destruct (Hab (pymax highest r) (pymax alpha (pymax highest r)))
          as (R & K & HR & HK).
        exists R, (K + k)%nat. split; [|lia].
        eapply runs_bind; [exact Hrr|]. cbv zeta. rewrite Hbrk. exact HR.
Qed.

Lemma plays_cheaper future_state :
  forall depth,
    node_cheaper
      (MinimaxPlayer.min_play self time_left future_state depth)
      (AlphaBetaPlayer.ab_min_play self time_left future_state depth) /\
    node_cheaper
      (MinimaxPlayer.max_play self time_left future_state depth)
      (AlphaBetaPlayer.ab_max_play self time_left future_state depth).
Proof.
  induction future_state as [b IH] using Board_tree_ind. intros depth.
  unfold node_cheaper. rewrite min_play_eq, max_play_eq.
  destruct ((depth =? 0) || is_empty (successors b)) eqn:Eleaf.
  - split; exists (score self b (ident self)), (0 + 1)%nat;
      (split; [eapply runs_bind; [apply runs_check|apply runs_ret]|]);
      intros a b0; exists (score self b (ident self)), (0 + 1)%nat;
      (split; [|lia]).
    + rewrite ab_min_play_eq, Eleaf.
      eapply runs_bind; [apply runs_check|apply runs_ret].
    + rewrite ab_max_play_eq, Eleaf.
      eapply runs_bind; [apply runs_check|apply runs_ret].
  - split.
    + assert (Hkids : Forall
                (fun mc => node_cheaper
                   (MinimaxPlayer.max_play self time_left (snd mc)
                      (depth - 1))
                   (AlphaBetaPlayer.ab_max_play self time_left (snd mc)
                      (depth - 1)))
                (successors b)).
      { eapply Forall_impl; [|exact IH]. intros mc H. apply (H (depth - 1)). }
      destruct (ab_min_play_loop_cheaper
                  (fun s => MinimaxPlayer.max_play self time_left s (depth - 1))
                  (fun s a b0 => AlphaBetaPlayer.ab_max_play self time_left s
                                   (depth - 1) a b0)
                  NInf _ Hkids PInf) as (V & N & HV & _).
      exists V, (N + 1)%nat. split.
      * eapply runs_bind; [apply runs_check|exact HV].
      * intros a b0.
        destruct (ab_min_play_loop_cheaper
                    (fun s => MinimaxPlayer.max_play self time_left s
                                (depth - 1))
                    (fun s a b0 => AlphaBetaPlayer.ab_max_play self time_left
                                     s (depth - 1) a b0)
                    a _ Hkids PInf) as (V' & N' & HV' & Hab).
        assert (N' = N).
        { specialize (HV 0%nat). specialize (HV' 0%nat).
          rewrite HV in HV'. inversion HV'. lia. }
        subst N'.
        destruct (Hab PInf b0) as (R & K & HR & HK).
        exists R, (K + 1)%nat. split; [|lia].
        rewrite ab_min_play_eq, Eleaf.
        eapply runs_bind; [apply runs_check|exact HR].
    + assert (Hkids : Forall
                (fun mc => node_cheaper
                   (MinimaxPlayer.min_play self time_left (snd mc)
                      (depth - 1))
                   (AlphaBetaPlayer.ab_min_play self time_left (snd mc)
                      (depth - 1)))
                (successors b)).
      { eapply Forall_impl; [|exact IH]. intros mc H. apply (H (depth - 1)). }
      destruct (ab_max_play_loop_cheaper
                  (fun s => MinimaxPlayer.min_play self time_left s (depth - 1))
                  (fun s a b0 => AlphaBetaPlayer.ab_min_play self time_left s
                                   (depth - 1) a b0)
                  PInf _ Hkids NInf) as (V & N & HV & _).
      exists V, (N + 1)%nat. split.
      * eapply runs_bind; [apply runs_check|exact HV].
      * intros a b0.
        destruct (ab_max_play_loop_cheaper
                    (fun s => MinimaxPlayer.min_play self time_left s
                                (depth - 1))
                    (fun s a b0 => AlphaBetaPlayer.ab_min_play self time_left
                                     s (depth - 1) a b0)
                    b0 _ Hkids NInf) as (V' & N' & HV' & Hab).
        assert (N' = N).
        { specialize (HV 0%nat). specialize (HV' 0%nat).
          rewrite HV in HV'. inversion HV'. lia. }
        subst N'.
        destruct (Hab NInf a) as (R & K & HR & HK).
        exists R, (K + 1)%nat. split; [|lia].
        rewrite ab_max_play_eq, Eleaf.
        eapply runs_bind; [apply runs_check|exact HR].
Qed.

Lemma root_loops_cheaper depth moves :
  forall best_score best_move,
  exists m N,
    runs (MinimaxPlayer.minimax_loop self time_left depth moves
            best_score best_move) m N /\
    forall beta alpha best_score' best_move',
    exists m' K,
      runs (AlphaBetaPlayer.alphabeta_loop self time_left depth beta moves
              alpha best_score' best_move') m' K /\
      (K <= N)%nat.
Proof.
  induction moves as [|[move s] rest IH]; intros best_score best_move.
  - exists best_move, 0%nat. split; [apply runs_ret|].
    intros beta alpha best_score' best_move'.
    exists best_move', 0%nat. split; [apply runs_ret|lia].
  - destruct (plays_cheaper s (depth - 1)) as ((v & n & Hv & Hr) & _).
    assert (Hmm : exists m N,
               runs (MinimaxPlayer.minimax_loop self time_left depth rest
                       (if fltb best_score v then v else best_score)
                       (if fltb best_score v then move else best_move)) m N /\
               forall beta alpha best_score' best_move',
               exists m' K,
                 runs (AlphaBetaPlayer.alphabeta_loop self time_left depth
                         beta rest alpha best_score' best_move') m' K /\
                 (K <= N)%nat) by apply IH.
    destruct Hmm as (m & N & Hm & Hab).
    exists m, (N + n)%nat. split.
    + cbn [MinimaxPlayer.minimax_loop].
      eapply runs_bind; [exact Hv|].
      destruct (fltb best_score v); exact Hm.
    + intros beta alpha best_score' best_move'.
      destruct (Hr alpha beta) as (r & k & Hrr & Hk).
      cbn [AlphaBetaPlayer.alphabeta_loop].
      destruct (fltb beta r) eqn:Hcut.
      * exists move, (0 + k)%nat. split; [|lia].
        eapply runs_bind; [exact Hrr|]. rewrite Hcut. apply runs_ret.
      * destruct (Hab beta (pymax alpha r)
                    (if fltb best_score' r then r else best_score')
                    (if fltb best_score' r then move else best_move'))
          as (m' & K & Hm' & HK).
        exists m', (K + k)%nat. split; [|lia].
        eapply runs_bind; [exact Hrr|]. rewrite Hcut. cbv zeta.
        destruct (fltb best_score' r); exact Hm'.
Qed.

End Cost.

(** X15: under a clock that never runs low, [alphabeta] (any window)
    and [minimax] both return, and [alphabeta] has read the clock, that is
    entered a search function, at least once and no more often than
    [minimax] on the same state and depth. *)
Theorem alphabeta_reads_no_more_than_minimax
    (self : IsolationPlayer) (time_left : nat -> Q) (game : Board)
    (depth : Z) (alpha beta : pyfloat) (t : nat) :
  never_expires self time_left ->
  exists m t1 m' t2,
    MinimaxPlayer.minimax self time_left game depth t = Done m t1 /\
    AlphaBetaPlayer.alphabeta self time_left game depth alpha beta t
    = Done m' t2 /\
    (t < t2 <= t1)%nat.
Proof.
  intros Hclock.
  unfold MinimaxPlayer.minimax, AlphaBetaPlayer.alphabeta, bind.
  rewrite (check_deadline_pass _ _ _ (Hclock t)). cbv zeta.
  destruct (successors game) as [|[first s] rest].
  - exists no_move, (S t), no_move, (S t). repeat split; lia.
  - destruct (root_loops_cheaper self time_left Hclock depth
                ((first, s) :: rest) NInf first) as (m & N & Hm & Hab).
    destruct (Hab beta alpha NInf first) as (m' & K & Hm' & HK).
    exists m, (N + S t)%nat, m', (K + S t)%nat.
    split; [apply Hm|]. split; [apply Hm'|]. lia.
Qed.

Lemma alphabeta_reads_no_more_than_minimax_witness :
  exists m t1 m' t2,
    MinimaxPlayer.minimax me plenty detour 1 0%nat = Done m t1 /\
    AlphaBetaPlayer.alphabeta me plenty detour 1 NInf (Fin (1 # 2)) 0%nat
    = Done m' t2 /\
    (0 < t2 <= t1)%nat.
Proof.
  apply (alphabeta_reads_no_more_than_minimax me plenty detour 1
           NInf (Fin (1 # 2)) 0%nat).
  apply plenty_never_expires.
Defined.

(** X16: on a state with legal moves and under a clock that never
    runs low, [MinimaxPlayer.get_move] returns a legal move. *)
Theorem minimax_get_move_legal_without_low_reading
    (self : IsolationPlayer) (time_left : nat -> Q) (game : Board)
    (t : nat) :
  never_expires self time_left ->
  get_legal_moves game <> [] ->
  exists m t',
    MinimaxPlayer.get_move self time_left game t = Done m t' /\
    In m (get_legal_moves game).
Proof.
  intros Hclock Hne.
  unfold MinimaxPlayer.get_move, try_except.
  pose proof (closure_minimax self time_left
                (@stops_at_first_low self time_left)
                (stops_ret self time_left) (stops_check self time_left)
                (stops_bind self time_left) game (search_depth self) t)
    as Hs.
  destruct (MinimaxPlayer.minimax self time_left game (search_depth self) t)
    as [m t'|t'] eqn:E.
  - exists m, t'. split; [reflexivity|].
    unfold MinimaxPlayer.minimax in E.
    apply bind_Done in E. destruct E as (_ & t1 & _ & E).
    unfold get_legal_moves in *.
    destruct (successors game) as [|[first s] rest];
      [contradiction Hne; reflexivity|].
    apply minimax_loop_returns_seen in E.
    destruct E as [->|E]; [left; reflexivity|exact E].
  - destruct Hs as (k & _ & _ & Hlow & _). contradiction (Hclock k).
Qed.

Lemma minimax_get_move_legal_without_low_reading_witness :
  exists m t',
    MinimaxPlayer.get_move me plenty crossroads 0%nat = Done m t' /\
    In m (get_legal_moves crossroads).
Proof.
  apply (minimax_get_move_legal_without_low_reading me plenty crossroads
           0%nat).
  - apply plenty_never_expires.
  - discriminate.
Defined.

(** * The deadline check comes first *)

(** ** The search on record *)

Section TracedUnfold.
Variable self : IsolationPlayer.
Variable time_left : nat -> Q.
Local Open Scope traced_scope.

Lemma traced_min_play_eq future_state depth :
  Traced.min_play self time_left future_state depth
  = (Traced.check_deadline self time_left ;;
     call (GetLegalMoves future_state) ;;
     if (depth =? 0) || is_empty (successors future_state)
     then call (Score future_state) ;;
          tret (score self future_state (ident self))
     else Traced.min_play_loop future_state
            (fun s => Traced.max_play self time_left s (depth - 1))
            (successors future_state) PInf).
Proof. destruct future_state; reflexivity. Qed.

Lemma traced_max_play_eq future_state depth :
  Traced.max_play self time_left future_state depth
  = (Traced.check_deadline self time_left ;;
     call (GetLegalMoves future_state) ;;
     if (depth =? 0) || is_empty (successors future_state)
     then call (Score future_state) ;;
          tret (score self future_state (ident self))
     else Traced.max_play_loop future_state
            (fun s => Traced.min_play self time_left s (depth - 1))
            (successors future_state) NInf).
Proof. destruct future_state; reflexivity. Qed.

Lemma traced_ab_min_play_eq future_state depth alpha beta :
  Traced.ab_min_play self time_left future_state depth alpha beta
  = (Traced.check_deadline self time_left ;;
     call (GetLegalMoves future_state) ;;
     if (depth =? 0) || is_empty (successors future_state)
     then call (Score future_state) ;;
          tret (score self future_state (ident self))
     else Traced.ab_min_play_loop future_state
            (fun s a b => Traced.ab_max_play self time_left s (depth - 1) a b)
            alpha (successors future_state) PInf beta).
Proof. destruct future_state; reflexivity. Qed.

Lemma traced_ab_max_play_eq future_state depth alpha beta :
  Traced.ab_max_play self time_left future_state depth alpha beta
  = (Traced.check_deadline self time_left ;;
     call (GetLegalMoves future_state) ;;
     if (depth =? 0) || is_empty (successors future_state)
     then call (Score future_state) ;;
          tret (score self future_state (ident self))
     else Traced.ab_max_play_loop future_state
            (fun s a b => Traced.ab_min_play self time_left s (depth - 1) a b)
            beta (successors future_state) NInf alpha).
Proof. destruct future_state; reflexivity. Qed.

End TracedUnfold.

(** *** What holds of every recorded computation *)

Section TracedClosure.
Variable self : IsolationPlayer.
Variable time_left : nat -> Q.
Variable P : forall A : Type, T A -> Prop.
Hypothesis P_ret : forall (A : Type) (a : A), P A (tret a).
Hypothesis P_check : P unit (Traced.check_deadline self time_left).
Hypothesis P_call : forall e, P unit (call e).
Hypothesis P_bind :
  forall (A B : Type) (m : T A) (k : A -> T B),
    P A m -> (forall a, P B (k a)) -> P B (tbind m k).

Lemma traced_closure_min_play_loop parent child moves :
  Forall (fun mc => P _ (child (snd mc))) moves ->
  forall lowest_score,
    P _ (Traced.min_play_loop parent child moves lowest_score).
Proof.
  induction 1 as [|[move s] rest Hs _ IH]; intros lowest_score.
  - apply P_ret.
  - cbn [Traced.min_play_loop].
    apply P_bind; [apply P_call|]. intros _.
    apply P_bind; [exact Hs|]. intros v. apply IH.
Qed.

Lemma traced_closure_max_play_loop parent child moves :
  Forall (fun mc => P _ (child (snd mc))) moves ->
  forall highest_score,
    P _ (Traced.max_play_loop parent child moves highest_score).
Proof.
  induction 1 as [|[move s] rest Hs _ IH]; intros highest_score.
  - apply P_ret.
  - cbn [Traced.max_play_loop].
    apply P_bind; [apply P_call|]. intros _.
    apply P_bind; [exact Hs|]. intros v. apply IH.
Qed.

Lemma traced_closure_ab_min_play_loop parent child alpha moves :
  Forall (fun mc => forall a b, P _ (child (snd mc) a b)) moves ->
  forall lowest_score beta,
    P _ (Traced.ab_min_play_loop parent child alpha moves lowest_score beta).
Proof.
  induction 1 as [|[move s] rest Hs _ IH]; intros lowest_score beta.
  - apply P_ret.
  - cbn [Traced.ab_min_play_loop].
    apply P_bind; [apply P_call|]. intros _.
    apply P_bind; [apply Hs|]. intros v. cbv zeta.
    destruct (fleb _ alpha); [apply P_ret|apply IH].
Qed.

Lemma traced_closure_ab_max_play_loop parent child beta moves :
  Forall (fun mc => forall a b, P _ (child (snd mc) a b)) moves ->
  forall highest_score alpha,
    P _ (Traced.ab_max_play_loop parent child beta moves highest_score alpha).
Proof.
  induction 1 as [|[move s] rest Hs _ IH]; intros highest_score alpha.
  - apply P_ret.
  - cbn [Traced.ab_max_play_loop].
    apply P_bind; [apply P_call|]. intros _.
    apply P_bind; [apply Hs|]. intros v. cbv zeta.
    destruct (fleb beta _); [apply P_ret|apply IH].
Qed.

Lemma traced_closure_leaf (b : Board) :
  P _ (tbind (call (Score b))
         (fun _ => tret (score self b (ident self)))).
Proof. apply P_bind; [apply P_call|]. intros _. apply P_ret. Qed.

Lemma traced_closure_minimax_plays future_state :
  forall depth,
    P _ (Traced.min_play self time_left future_state depth) /\
    P _ (Traced.max_play self time_left future_state depth).
Proof.
  induction future_state as [b IH] using Board_tree_ind. intros depth.
  rewrite traced_min_play_eq, traced_max_play_eq.
  split; (apply P_bind; [apply P_check|]); intros _;
    (apply P_bind; [apply P_call|]); intros _;
    (destruct ((depth =? 0) || is_empty (successors b));
     [apply traced_closure_leaf|]).
  - apply traced_closure_min_play_loop.
    eapply Forall_impl; [|exact IH]. intros mc H. apply H.
  - apply traced_closure_max_play_loop.
    eapply Forall_impl; [|exact IH]. intros mc H. apply H.
Qed.

Lemma traced_closure_alphabeta_plays future_state :
  forall depth alpha beta,
    P _ (Traced.ab_min_play self time_left future_state depth alpha beta) /\
    P _ (Traced.ab_max_play self time_left future_state depth alpha beta).
Proof.
  induction future_state as [b IH] using Board_tree_ind.
  intros depth alpha beta.
  rewrite traced_ab_min_play_eq, traced_ab_max_play_eq.
  split; (apply P_bind; [apply P_check|]); intros _;
    (apply P_bind; [apply P_call|]); intros _;
    (destruct ((depth =? 0) || is_empty (successors b));
     [apply traced_closure_leaf|]).
  - apply traced_closure_ab_min_play_loop.
    eapply Forall_impl; [|exact IH]. intros mc H a b0. apply H.
  - apply traced_closure_ab_max_play_loop.
    eapply Forall_impl; [|exact IH]. intros mc H a b0. apply H.
Qed.

Lemma traced_closure_minimax_loop game depth moves :
  forall best_score best_move,
    P _ (Traced.minimax_loop self time_left game depth moves
           best_score best_move).
Proof.
  induction moves as [|[move s] rest IH]; intros best_score best_move.
  - apply P_ret.
  - cbn [Traced.minimax_loop].
    apply P_bind; [apply P_call|]. intros _.
    apply P_bind; [apply traced_closure_minimax_plays|]. intros v.
    destruct (fltb best_score v); apply IH.
Qed.

Lemma traced_closure_alphabeta_loop game depth beta moves :
  forall alpha best_score best_move,
    P _ (Traced.alphabeta_loop self time_left game depth beta
           moves alpha best_score best_move).
Proof.
  induction moves as [|[move s] rest IH]; intros alpha best_score best_move.
  - apply P_ret.
  - cbn [Traced.alphabeta_loop].
    apply P_bind; [apply P_call|]. intros _.
    apply P_bind; [apply traced_closure_alphabeta_plays|]. intros v.
    destruct (fltb beta v); [apply P_ret|].
    cbv zeta. destruct (fltb best_score v); apply IH.
Qed.

End TracedClosure.

(** *** The recorded functions are the functions of the players *)

Section Erasure.
Variable self : IsolationPlayer.
Variable time_left : nat -> Q.

Lemma erases_ret {A : Type} (a : A) : erases (tret a) (ret a).
Proof. intros t log. reflexivity. Qed.

Lemma erases_check :
  erases (Traced.check_deadline self time_left)
         (check_deadline self time_left).
Proof.
  intros t log. unfold Traced.check_deadline, check_deadline.
  destruct (Qltb (time_left t) (TIMER_THRESHOLD self)); reflexivity.
Qed.

Lemma erases_bind {A B : Type} (m : T A) (k : A -> T B)
    (m0 : M A) (k0 : A -> M B) :
  erases m m0 -> (forall a, erases (k a) (k0 a)) ->
  erases (tbind m k) (bind m0 k0).
Proof.
  intros Hm Hk t log. unfold tbind, bind.
  specialize (Hm t log).
  destruct (m t log) as [a t1 log1|t1 log1]; simpl in Hm; rewrite <- Hm.
  - apply Hk.
  - reflexivity.
Qed.

Lemma erases_call {A : Type} e (m : T A) (m0 : M A) :
  erases m m0 -> erases (tbind (call e) (fun _ => m)) m0.
Proof. intros Hm t log. unfold tbind, call. apply Hm. Qed.

Lemma erases_min_play_loop parent child child0 moves :
  Forall (fun mc => erases (child (snd mc)) (child0 (snd mc))) moves ->
  forall lowest_score,
    erases (Traced.min_play_loop parent child moves lowest_score)
           (MinimaxPlayer.min_play_loop child0 moves lowest_score).
Proof.
  induction 1 as [|[move s] rest Hs _ IH]; intros lowest_score.
  - apply erases_ret.
  - cbn [Traced.min_play_loop MinimaxPlayer.min_play_loop].
    apply erases_call. apply erases_bind; [exact Hs|]. intros v. apply IH.
Qed.

Lemma erases_max_play_loop parent child child0 moves :
  Forall (fun mc => erases (child (snd mc)) (child0 (snd mc))) moves ->
  forall highest_score,
    erases (Traced.max_play_loop parent child moves highest_score)
           (MinimaxPlayer.max_play_loop child0 moves highest_score).
Proof.
  induction 1 as [|[move s] rest Hs _ IH]; intros highest_score.
  - apply erases_ret.
  - cbn [Traced.max_play_loop MinimaxPlayer.max_play_loop].
    apply erases_call. apply erases_bind; [exact Hs|]. intros v. apply IH.
Qed.

Lemma erases_ab_min_play_loop parent child child0 alpha moves :
  Forall (fun mc => forall a b,
              erases (child (snd mc) a b) (child0 (snd mc) a b)) moves ->
  forall lowest_score beta,
    erases (Traced.ab_min_play_loop parent child alpha moves
              lowest_score beta)
           (AlphaBetaPlayer.ab_min_play_loop child0 alpha moves
              lowest_score beta).
Proof.
  induction 1 as [|[move s] rest Hs _ IH]; intros lowest_score beta.
  - apply erases_ret.
  - cbn [Traced.ab_min_play_loop AlphaBetaPlayer.ab_min_play_loop].
    apply erases_call. apply erases_bind; [apply Hs|]. intros v. cbv zeta.
    destruct (fleb _ alpha); [apply erases_ret|apply IH].
Qed.

Lemma erases_ab_max_play_loop parent child child0 beta moves :
  Forall (fun mc => forall a b,
              erases (child (snd mc) a b) (child0 (snd mc) a b)) moves ->
  forall highest_score alpha,
    erases (Traced.ab_max_play_loop parent child beta moves
              highest_score alpha)
           (AlphaBetaPlayer.ab_max_play_loop child0 beta moves
              highest_score alpha).
Proof.
  induction 1 as [|[move s] rest Hs _ IH]; intros highest_score alpha.
  - apply erases_ret.
  - cbn [Traced.ab_max_play_loop AlphaBetaPlayer.ab_max_play_loop].
    apply erases_call. apply erases_bind; [apply Hs|]. intros v. cbv zeta.
    destruct (fleb beta _); [apply erases_ret|apply IH].
Qed.

Lemma erases_leaf (b : Board) :
  erases (tbind (call (Score b))
            (fun _ => tret (score self b (ident self))))
         (ret (score self b (ident self))).
Proof. apply erases_call. apply erases_ret. Qed.

Lemma erases_plays future_state :
  forall depth,
    erases (Traced.min_play self time_left future_state depth)
           (MinimaxPlayer.min_play self time_left future_state depth) /\
    erases (Traced.max_play self time_left future_state depth)
           (MinimaxPlayer.max_play self time_left future_state depth) /\
    (forall alpha beta,
        erases (Traced.ab_min_play self time_left future_state depth
                  alpha beta)
               (AlphaBetaPlayer.ab_min_play self time_left future_state depth
                  alpha beta)) /\
    (forall alpha beta,
        erases (Traced.ab_max_play self time_left future_state depth
                  alpha beta)
               (AlphaBetaPlayer.ab_max_play self time_left future_state depth
                  alpha beta)).
Proof.
  induction future_state as [b IH] using Board_tree_ind. intros depth.
  split; [|split; [|split]]; intros;
    rewrite ?traced_min_play_eq, ?traced_max_play_eq,
      ?traced_ab_min_play_eq, ?traced_ab_max_play_eq,
      ?min_play_eq, ?max_play_eq, ?ab_min_play_eq, ?ab_max_play_eq;
    (apply erases_bind; [apply erases_check|]); intros _;
    apply erases_call;
    (destruct ((depth =? 0) || is_empty (successors b));
     [apply erases_leaf|]).
  - apply erases_min_play_loop.
    eapply Forall_impl; [|exact IH]. intros mc H. apply (H (depth - 1)).
  - apply erases_max_play_loop.
    eapply Forall_impl; [|exact IH]. intros mc H. apply (H (depth - 1)).
  - apply erases_ab_min_play_loop.
    eapply Forall_impl; [|exact IH]. intros mc H a b0.
    apply (H (depth - 1)).
  - apply erases_ab_max_play_loop.
    eapply Forall_impl; [|exact IH]. intros mc H a b0.
    apply (H (depth - 1)).
Qed.

Lemma erases_minimax_loop game depth moves :
  forall best_score best_move,
    erases (Traced.minimax_loop self time_left game depth moves
              best_score best_move)
           (MinimaxPlayer.minimax_loop self time_left depth moves
              best_score best_move).
Proof.
  induction moves as [|[move s] rest IH]; intros best_score best_move.
  - apply erases_ret.
  - cbn [Traced.minimax_loop MinimaxPlayer.minimax_loop].
    apply erases_call. apply erases_bind; [apply erases_plays|].
    intros v. destruct (fltb best_score v); apply IH.
Qed.

Lemma erases_alphabeta_loop game depth beta moves :
  forall alpha best_score best_move,
    erases (Traced.alphabeta_loop self time_left game depth beta moves
              alpha best_score best_move)
           (AlphaBetaPlayer.alphabeta_loop self time_left depth beta moves
              alpha best_score best_move).
Proof.
  induction moves as [|[move s] rest IH]; intros alpha best_score best_move.
  - apply erases_ret.
  - cbn [Traced.alphabeta_loop AlphaBetaPlayer.alphabeta_loop].
    apply erases_call. apply erases_bind; [apply erases_plays|].
    intros v. destruct (fltb beta v); [apply erases_ret|]. cbv zeta.
    destruct (fltb best_score v); apply IH.
Qed.

Lemma erases_minimax game depth :
  erases (Traced.minimax self time_left game depth)
         (MinimaxPlayer.minimax self time_left game depth).
Proof.
  unfold Traced.minimax, MinimaxPlayer.minimax.
  apply erases_bind; [apply erases_check|]. intros _.
  apply erases_call. cbv zeta.
  destruct (successors game) as [|[first s] rest];
    [apply erases_ret|apply erases_minimax_loop].
Qed.

Lemma erases_alphabeta game depth alpha beta :
  erases (Traced.alphabeta self time_left game depth alpha beta)
         (AlphaBetaPlayer.alphabeta self time_left game depth alpha beta).
Proof.
  unfold Traced.alphabeta, AlphaBetaPlayer.alphabeta.
  apply erases_bind; [apply erases_check|]. intros _.
  apply erases_call. cbv zeta.
  destruct (successors game) as [|[first s] rest];
    [apply erases_ret|apply erases_alphabeta_loop].
Qed.

End Erasure.

Section Orderly.
Variable self : IsolationPlayer.
Variable time_left : nat -> Q.

Lemma orderly_ret (A : Type) (a : A) : orderly self time_left (tret a).
Proof.
  intros t log. simpl. split; [lia|]. split.
  - exists []. now rewrite app_nil_r.
  - intros i Hi. lia.
Qed.

Lemma orderly_call e : orderly self time_left (call e).
Proof.
  intros t log. simpl. split; [lia|]. split.
  - exists [e]. reflexivity.
  - intros i Hi. lia.
Qed.

Lemma orderly_check :
  orderly self time_left (Traced.check_deadline self time_left).
Proof.
  intros t log. unfold Traced.check_deadline.
  destruct (Qltb (time_left t) (TIMER_THRESHOLD self)) eqn:E.
  - exists t. split; [reflexivity|]. split; [lia|]. split.
    + exists []. now rewrite app_nil_r.
    + split; [apply Qltb_iff; exact E|]. intros i Hi. lia.
  - split; [lia|]. split.
    + exists []. now rewrite app_nil_r.
    + intros i Hi. assert (i = t) by lia. subst i.
      intros Hb. apply Qltb_iff in Hb. congruence.
Qed.

Lemma orderly_bind (A B : Type) (m : T A) (k : A -> T B) :
  orderly self time_left m ->
  (forall a, orderly self time_left (k a)) ->
  orderly self time_left (tbind m k).
Proof.
  intros Hm Hk t log. unfold tbind. specialize (Hm t log).
  destruct (m t log) as [a t1 log1|t1 log1].
  - destruct Hm as (Hle & (evs & ->) & Hno). specialize (Hk a t1 (log ++ evs)).
    destruct (k a t1 (log ++ evs)) as [b t2 log2|t2 log2].
    + destruct Hk as (Hle2 & (evs2 & ->) & Hno2). split; [lia|]. split.
      * exists (evs ++ evs2). now rewrite app_assoc.
      * intros i Hi. destruct (Nat.lt_ge_cases i t1);
          [apply Hno|apply Hno2]; lia.
    + destruct Hk as (n & -> & Hle2 & (evs2 & ->) & Hlow & Hno2).
      exists n. split; [reflexivity|]. split; [lia|]. split.
      * exists (evs ++ evs2). now rewrite app_assoc.
      * split; [exact Hlow|].
        intros i Hi. destruct (Nat.lt_ge_cases i t1);
          [apply Hno|apply Hno2]; lia.
  - exact Hm.
Qed.

(** A call that starts with the deadline check and then enumerates the
    moves of [game]. *)
Lemma check_then_enumerate (A : Type) (game : Board) (rest : T A) :
  orderly self time_left rest ->
  deadline_check_first self time_left game
    (tbind (Traced.check_deadline self time_left)
       (fun _ => tbind (call (GetLegalMoves game)) (fun _ => rest))).
Proof.
  intros Hrest t log.
  unfold tbind, Traced.check_deadline, call.
  destruct (below_threshold_dec self time_left t) as [Hb|Hb].
  - assert (E : Qltb (time_left t) (TIMER_THRESHOLD self) = true)
      by (apply Qltb_iff; exact Hb).
    rewrite E. split; [|split].
    + split; [intros _; exact Hb|intros _; exists log; reflexivity].
    + intros _. reflexivity.
    + intros Hn. contradiction.
  - assert (E : Qltb (time_left t) (TIMER_THRESHOLD self) = false).
    { destruct (Qltb (time_left t) (TIMER_THRESHOLD self)) eqn:E;
        [|reflexivity].
      apply Qltb_iff in E. contradiction. }
    rewrite E.
    specialize (Hrest (S t) (log ++ [GetLegalMoves game])).
    destruct (rest (S t) (log ++ [GetLegalMoves game]))
      as [a t' log'|t' log'].
    + destruct Hrest as (Hle & (evs & ->) & Hno).
      split; [|split].
      * split; [intros (log' & H); discriminate H|intros H; contradiction].
      * intros H. contradiction.
      * intros _. split; [lia|]. exists evs. now rewrite <- app_assoc.
    + destruct Hrest as (n & -> & Hle & (evs & ->) & Hlow & Hno).
      split; [|split].
      * split; [|intros H; contradiction].
        intros (log' & H). inversion H. lia.
      * intros H. contradiction.
      * intros _. exists n, evs. split; [reflexivity|]. split; [lia|].
        split; [exact Hlow|]. split.
        -- intros i Hi. apply Hno. lia.
        -- now rewrite <- app_assoc.
Qed.

End Orderly.

(** C6, as the code has it: each of the six search functions starts with
    the deadline check.  It raises [SearchTimeout] at that check, after
    the one reading taken at its entry, if and only if that reading is
    below the threshold, and then nothing has been asked of the board or
    of the heuristic: no move enumerated, no successor generated, no state
    evaluated.  When the check passes, the moves of the state are
    enumerated next, and the call can still end in [SearchTimeout]: it
    is then raised by the check of a nested call, at the first later
    reading below the threshold. *)
Theorem deadline_check_comes_first
    (self : IsolationPlayer) (time_left : nat -> Q) (game : Board)
    (depth : Z) (alpha beta : pyfloat) :
  deadline_check_first self time_left game
    (Traced.minimax self time_left game depth) /\
  deadline_check_first self time_left game
    (Traced.min_play self time_left game depth) /\
  deadline_check_first self time_left game
    (Traced.max_play self time_left game depth) /\
  deadline_check_first self time_left game
    (Traced.alphabeta self time_left game depth alpha beta) /\
  deadline_check_first self time_left game
    (Traced.ab_min_play self time_left game depth alpha beta) /\
  deadline_check_first self time_left game
    (Traced.ab_max_play self time_left game depth alpha beta).
Proof.
  pose proof (orderly_ret self time_left) as Hret.
  pose proof (orderly_check self time_left) as Hcheck.
  pose proof (orderly_call self time_left) as Hcall.
  pose proof (orderly_bind self time_left) as Hbind.
  assert (Hmm : forall s d,
             orderly self time_left (Traced.min_play self time_left s d) /\
             orderly self time_left (Traced.max_play self time_left s d))
    by (intros s d;
        apply (traced_closure_minimax_plays self time_left _
                 Hret Hcheck Hcall Hbind)).
  assert (Hab : forall s d a b,
             orderly self time_left
               (Traced.ab_min_play self time_left s d a b) /\
             orderly self time_left
               (Traced.ab_max_play self time_left s d a b))
    by (intros s d a b;
        apply (traced_closure_alphabeta_plays self time_left _
                 Hret Hcheck Hcall Hbind)).
  rewrite traced_min_play_eq, traced_max_play_eq,
    traced_ab_min_play_eq, traced_ab_max_play_eq.
  unfold Traced.minimax, Traced.alphabeta.
  split; [|split; [|split; [|split; [|split]]]];
    apply check_then_enumerate; cbv zeta.
  - destruct (successors game) as [|[first s] rest]; [apply Hret|].
    apply (traced_closure_minimax_loop self time_left _
             Hret Hcheck Hcall Hbind).
  - destruct ((depth =? 0) || is_empty (successors game));
      [apply (traced_closure_leaf self _ Hret Hcall Hbind)|].
    apply (traced_closure_min_play_loop _ Hret Hcall Hbind).
    apply Forall_forall. intros mc _. apply Hmm.
  - destruct ((depth =? 0) || is_empty (successors game));
      [apply (traced_closure_leaf self _ Hret Hcall Hbind)|].
    apply (traced_closure_max_play_loop _ Hret Hcall Hbind).
    apply Forall_forall. intros mc _. apply Hmm.
  - destruct (successors game) as [|[first s] rest]; [apply Hret|].
    apply (traced_closure_alphabeta_loop self time_left _
             Hret Hcheck Hcall Hbind).
  - destruct ((depth =? 0) || is_empty (successors game));
      [apply (traced_closure_leaf self _ Hret Hcall Hbind)|].
    apply (traced_closure_ab_min_play_loop _ Hret Hcall Hbind).
    apply Forall_forall. intros mc _ a b. apply Hab.
  - destruct ((depth =? 0) || is_empty (successors game));
      [apply (traced_closure_leaf self _ Hret Hcall Hbind)|].
    apply (traced_closure_ab_max_play_loop _ Hret Hcall Hbind).
    apply Forall_forall. intros mc _ a b. apply Hab.
Qed.

(** C6, as stated, fails: the reading at the entry of [minimax] (and of
    [alphabeta]) is not below the threshold, and the call raises
    [SearchTimeout] all the same, because the next reading, taken at the
    entry of the nested [min_play] ([ab_min_play]), is. *)
Lemma timeout_without_low_reading_at_own_entry :
  ~ below_threshold me (low_from 1) 0 /\
  below_threshold me (low_from 1) 1 /\
  MinimaxPlayer.minimax me (low_from 1) crossroads 1 0%nat
  = SearchTimeout 2%nat /\
  AlphaBetaPlayer.alphabeta me (low_from 1) crossroads 1 NInf PInf 0%nat
  = SearchTimeout 2%nat /\
  Traced.minimax me (low_from 1) crossroads 1 0%nat []
  = Raised 2%nat [GetLegalMoves crossroads; ForecastMove crossroads (0, 0)].
Proof.
  split; [|split; [|split; [|split]]]; try reflexivity.
  intros H. vm_compute in H. discriminate.
Qed.
